(** * TwitchDropsMiner: the websocket connection pool (src/websocket.py)

    A shallow embedding of [Websocket] and [WebsocketPool] and the
    properties of topic assignment, consolidation, keepalive, topic
    synchronisation and frame reception; and of the settings object
    (src/settings.py) and the parsed arguments (src/main.py).

    Conventions of the embedding.
    - A Python [dict] used as a map is a [gmap]; a Python [set] is a [gset].
    - The order in which a Python [set] hands out its elements ([pop],
      iteration) is unspecified.  Every function that depends on it takes
      that order as an argument [order : gset _ -> list _]; the theorems
      hold for every order that enumerates the set.
    - Clock readings ([time()]), random nonces, the bearer credential and
      the frames delivered by the transport are inputs of the functions
      that consume them.
    - Time stamps are exact integers (an integral time unit); rounding of
      Python floats is not modelled.
    - Calls to the display sink, messages handed to the transport, awaited
      starts and detached tasks are recorded as a list of [Event]s.
    - [add_topics] is given twice: as a whole call, from its start to its
      return, and as a coroutine that suspends at [await ws.start()] and is
      resumed on the pool as other calls have left it.  The two agree when
      nothing overlaps the call. *)

From Stdlib Require Import ZArith Lia.
From stdpp Require Import base option list gmap fin_maps fin_sets strings.

#[local] Set Warnings "-clear-no-such-hyp".

(** ** Data model *)

(** aiohttp.ClientWebSocketResponse: one physical transport, by identity. *)
Definition Transport := nat.

(** The three status texts a connection reports to the display sink. *)
Inductive Status := Disconnected | Initializing | Connected.

(** JsonType: a decoded JSON document. *)
#[warnings="-register-all"]
Inductive JsonType :=
| JNull
| JBool (b : bool)
| JNumber (z : Z)
| JString (s : string)
| JArray (l : list JsonType)
| JObject (fields : list (string * JsonType)).

(** The exceptions that occur in src/websocket.py. *)
Inductive Exn :=
| MinerException (msg : string)
| WebsocketClosed
| JSONDecodeError
| AttributeError
| KeyError
| TypeError.

Section Model.

#[local] Set Default Proof Using "Type".

(** Modelled from the spec: [WebsocketTopic] is declared in constants.py,
    which is not part of the sources at hand.  Spec, section 3: a topic is
    an opaque, stringifiable subscription key and topics are compared and
    deduplicated by their string form.  So the type is abstract, with
    decidable equality, and the theorems that rest on the comparison of
    topics take [str] to be injective. *)
Context {WebsocketTopic : Type} `{Countable WebsocketTopic}.
Variable str : WebsocketTopic → string.

(** The configuration constants of constants.py, which is not part of the
    sources at hand, are parameters. *)
Variable WS_TOPICS_LIMIT : nat.
Variable MAX_WEBSOCKETS : nat.
Variable PING_INTERVAL : Z.
Variable PING_TIMEOUT : Z.

(** [json.loads] of the Python standard library: [None] when it raises
    [JSONDecodeError]. *)
Variable json_loads : string → option JsonType.

(** class Websocket: the fields set by [__init__]. *)
Record Websocket := mkWebsocket {
  _idx : nat;
  _ws : option Transport;            (* AwaitableValue: the live transport *)
  _closed : bool;                    (* asyncio.Event *)
  _reconnect_requested : bool;       (* asyncio.Event *)
  _topics_changed : bool;            (* asyncio.Event *)
  _next_ping : Z;
  _max_pong : Z;
  _handle_task : bool;               (* a handling task has been created *)
  topics : gmap string WebsocketTopic;
  _submitted : gset WebsocketTopic;
}.

Definition set_ws (v : option Transport) (w : Websocket) : Websocket :=
  mkWebsocket (_idx w) v (_closed w) (_reconnect_requested w)
    (_topics_changed w) (_next_ping w) (_max_pong w) (_handle_task w)
    (topics w) (_submitted w).
Definition set_closed (b : bool) (w : Websocket) : Websocket :=
  mkWebsocket (_idx w) (_ws w) b (_reconnect_requested w)
    (_topics_changed w) (_next_ping w) (_max_pong w) (_handle_task w)
    (topics w) (_submitted w).
Definition set_reconnect_requested (b : bool) (w : Websocket) : Websocket :=
  mkWebsocket (_idx w) (_ws w) (_closed w) b
    (_topics_changed w) (_next_ping w) (_max_pong w) (_handle_task w)
    (topics w) (_submitted w).
Definition set_topics_changed (b : bool) (w : Websocket) : Websocket :=
  mkWebsocket (_idx w) (_ws w) (_closed w) (_reconnect_requested w)
    b (_next_ping w) (_max_pong w) (_handle_task w)
    (topics w) (_submitted w).
Definition set_next_ping (t : Z) (w : Websocket) : Websocket :=
  mkWebsocket (_idx w) (_ws w) (_closed w) (_reconnect_requested w)
    (_topics_changed w) t (_max_pong w) (_handle_task w)
    (topics w) (_submitted w).
Definition set_max_pong (t : Z) (w : Websocket) : Websocket :=
  mkWebsocket (_idx w) (_ws w) (_closed w) (_reconnect_requested w)
    (_topics_changed w) (_next_ping w) t (_handle_task w)
    (topics w) (_submitted w).
Definition set_handle_task (b : bool) (w : Websocket) : Websocket :=
  mkWebsocket (_idx w) (_ws w) (_closed w) (_reconnect_requested w)
    (_topics_changed w) (_next_ping w) (_max_pong w) b
    (topics w) (_submitted w).
Definition set_topics (m : gmap string WebsocketTopic) (w : Websocket)
  : Websocket :=
  mkWebsocket (_idx w) (_ws w) (_closed w) (_reconnect_requested w)
    (_topics_changed w) (_next_ping w) (_max_pong w) (_handle_task w)
    m (_submitted w).
Definition set_submitted (s : gset WebsocketTopic) (w : Websocket)
  : Websocket :=
  mkWebsocket (_idx w) (_ws w) (_closed w) (_reconnect_requested w)
    (_topics_changed w) (_next_ping w) (_max_pong w) (_handle_task w)
    (topics w) s.

(** An outgoing message, as the dict passed to [Websocket.send]:
    "type", the optional "data" with "topics" and "auth_token", and the
    "nonce" that [send] adds. *)
Record Message := mkMessage {
  msg_type : string;
  msg_data : option (list string * string);
  msg_nonce : option string;
}.

(** Coroutines handed to [asyncio.create_task] by the pool. *)
Inductive Task :=
| StopTask (ws : Websocket) (remove : bool)       (* ws.stop(remove=...) *)
| AddTopicsTask (topics : list WebsocketTopic).   (* self.add_topics(...) *)

Inductive Event :=
| GuiUpdate (idx : nat) (status : option Status) (ntopics : option nat)
| WsSet (tr : Transport)                          (* self._ws.set(tr) *)
| WsClear                                          (* self._ws.clear() *)
| WsSend (tr : Transport) (m : Message)           (* ws.send_json(m) *)
| TopicCall (t : WebsocketTopic) (payload : JsonType)
                                        (* create_task(topic(payload)) *)
| AwaitStart (idx : nat)                          (* await ws.start() *)
| CreateTask (t : Task).                          (* asyncio.create_task *)

(** class WebsocketPool. *)
Record WebsocketPool := mkPool {
  _running : bool;
  websockets : list Websocket;
}.

(** ** Websocket.__init__ and WebsocketPool.__init__ *)

(** [Websocket(pool, index)] at clock reading [now]; the constructor ends
    with [set_status(disconnected)]. *)
Definition Websocket_init (index : nat) (now : Z) : Websocket :=
  mkWebsocket index None false false false now (now + PING_TIMEOUT) false
    ∅ ∅.

Definition WebsocketPool_init : WebsocketPool := mkPool false [].

(** ** WebsocketPool.add_topics *)

(** [ws.topics.values()] as a set. *)
Definition topic_values (w : Websocket) : gset WebsocketTopic :=
  map_img (topics w).

(** The inner [while topics_set and len(ws.topics) < WS_TOPICS_LIMIT] loop:
    [pending] is what is left of [topics_set], in the order [pop] yields
    it. *)
Fixpoint fill (pending : list WebsocketTopic)
    (m : gmap string WebsocketTopic)
  : gmap string WebsocketTopic * list WebsocketTopic :=
  match pending with
  | [] => (m, [])
  | topic :: rest =>
      if decide (size m < WS_TOPICS_LIMIT)
      then fill rest (<[str topic := topic]> m)
      else (m, pending)
  end.

(** [Websocket.start], seen from the caller: the handling task exists
    afterwards. *)
Definition start (w : Websocket) : Websocket := set_handle_task true w.

(** The head of the loop body of [add_topics]: the connection served at
    index [i].  Either [self.websockets[i]], or a new [Websocket(self, i)]
    built at clock reading [now], started when the pool runs, and appended
    to the list, where it sits at position [length (websockets p)].
    Returns the position, the connection, the list and the events. *)
Definition connection_at (now : Z) (i : nat) (p : WebsocketPool)
  : nat * Websocket * list Websocket * list Event :=
  match websockets p !! i with
  | Some ws => (i, ws, websockets p, [])          (* i < len(websockets) *)
  | None =>
      let ws0 := Websocket_init i now in
      let ws := if _running p then start ws0 else ws0 in
      (length (websockets p), ws, websockets p ++ [ws],
       GuiUpdate i (Some Disconnected) None
         :: (if _running p then [AwaitStart i] else []))
  end.

(** The [for i in range(MAX_WEBSOCKETS)] loop, [n] iterations left, at
    index [i].  [time i] is the clock reading seen by the constructor of
    connection [i]. *)
Fixpoint assign (time : nat → Z) (n i : nat) (pending : list WebsocketTopic)
    (p : WebsocketPool) (evs : list Event)
  : option Exn * WebsocketPool * list Event :=
  match n with
  | 0 => (Some (MinerException "Maximum topics limit has been reached"%string),
          p, evs)
  | S n' =>
      let '(j, ws, wss, created) := connection_at (time i) i p in
      let '(m, rest) := fill pending (topics ws) in
      let ws' := set_topics_changed true (set_topics m ws) in
      let p' := mkPool (_running p) (<[j := ws']> wss) in
      match rest with
      | [] => (None, p', evs ++ created)
      | _ :: _ => assign time n' (S i) rest p' (evs ++ created)
      end
  end.

(** [add_topics(topics)], the call from its start to its return: [None]
    is a normal return, [Some e] the exception raised.  The pool returned
    is the pool as the call leaves it, also when it raises. *)
Definition add_topics (order : gset WebsocketTopic → list WebsocketTopic)
    (time : nat → Z) (p : WebsocketPool) (topics : list WebsocketTopic)
  : option Exn * WebsocketPool * list Event :=
  let topics_set : gset WebsocketTopic :=
    list_to_set topics ∖ ⋃ (topic_values <$> websockets p) in
  if decide (topics_set = ∅) then (None, p, [])
  else assign time MAX_WEBSOCKETS 0 (order topics_set) p [].

(** ** WebsocketPool.add_topics as a coroutine

    [add_topics] above is a call run from its start to its return with
    nothing else in between.  The source is a coroutine: on a running
    pool it suspends at [await ws.start()], after [Websocket(self, i)] and
    before [self.websockets.append(ws)], and other calls of the pool run
    meanwhile.  A suspended call keeps its local variables: what is left
    of [range(MAX_WEBSOCKETS)], [i], [topics_set] and [ws]. *)
Record AddTopicsCall := mkAddTopicsCall {
  call_left : nat;
  call_i : nat;
  call_topics_set : list WebsocketTopic;
  call_ws : Websocket;
}.

(** Where a run of the coroutine stops: at its end, with the result of
    the call, or at the [await]. *)
Inductive AddTopicsStep :=
| Finished (result : option Exn)
| Awaiting (call : AddTopicsCall).

(** The [for] loop from index [i] on, [n] iterations left, up to its end
    or to the next [await]; [evs] are the events so far. *)
Fixpoint add_topics_loop (time : nat → Z) (n i : nat)
    (topics_set : list WebsocketTopic) (p : WebsocketPool) (evs : list Event)
  : AddTopicsStep * WebsocketPool * list Event :=
  match n with
  | 0 => (Finished
            (Some (MinerException
                     "Maximum topics limit has been reached"%string)),
          p, evs)
  | S n' =>
      match websockets p !! i with
      | Some ws =>                                  (* i < len(websockets) *)
          let '(m, rest) := fill topics_set (topics ws) in
          let ws' := set_topics_changed true (set_topics m ws) in
          let p' := mkPool (_running p) (<[i := ws']> (websockets p)) in
          match rest with
          | [] => (Finished None, p', evs)
          | _ :: _ => add_topics_loop time n' (S i) rest p' evs
          end
      | None =>
          let ws := Websocket_init i (time i) in
          let created := [GuiUpdate i (Some Disconnected) None] in
          if _running p
          then (Awaiting (mkAddTopicsCall n' i topics_set ws), p,
                evs ++ created ++ [AwaitStart i])
          else
            let '(m, rest) := fill topics_set (topics ws) in
            let ws' := set_topics_changed true (set_topics m ws) in
            let p' := mkPool (_running p)
                        (<[length (websockets p) := ws']>
                           (websockets p ++ [ws])) in
            match rest with
            | [] => (Finished None, p', evs ++ created)
            | _ :: _ => add_topics_loop time n' (S i) rest p' (evs ++ created)
            end
      end
  end.

(** The call up to its end or its first [await]. *)
Definition add_topics_begin
    (order : gset WebsocketTopic → list WebsocketTopic)
    (time : nat → Z) (p : WebsocketPool) (topics : list WebsocketTopic)
  : AddTopicsStep * WebsocketPool * list Event :=
  let topics_set : gset WebsocketTopic :=
    list_to_set topics ∖ ⋃ (topic_values <$> websockets p) in
  if decide (topics_set = ∅) then (Finished None, p, [])
  else add_topics_loop time MAX_WEBSOCKETS 0 (order topics_set) p [].

(** The call from the [await] on, resumed on the pool [p] as it is by
    then: the started connection is appended, whatever the length of the
    list has become, and served; the loop goes on at [i + 1]. *)
Definition add_topics_resume (time : nat → Z) (c : AddTopicsCall)
    (p : WebsocketPool) : AddTopicsStep * WebsocketPool * list Event :=
  let ws := start (call_ws c) in
  let '(m, rest) := fill (call_topics_set c) (topics ws) in
  let ws' := set_topics_changed true (set_topics m ws) in
  let p' := mkPool (_running p)
              (<[length (websockets p) := ws']> (websockets p ++ [ws])) in
  match rest with
  | [] => (Finished None, p', [])
  | _ :: _ => add_topics_loop time (call_left c) (S (call_i c)) rest p' []
  end.

(** A call that nothing overlaps: each time it is suspended it is resumed
    on the pool as it left it.  [fuel] bounds the number of
    resumptions. *)
Fixpoint resume_at_once (fuel : nat) (time : nat → Z)
    (r : AddTopicsStep * WebsocketPool * list Event)
  : option (option Exn * WebsocketPool * list Event) :=
  match r with
  | (Finished result, p, evs) => Some (result, p, evs)
  | (Awaiting c, p, evs) =>
      match fuel with
      | 0 => None
      | S fuel' =>
          let '(s, p', evs') := add_topics_resume time c p in
          resume_at_once fuel' time (s, p', evs ++ evs')
      end
  end.

(** ** WebsocketPool.remove_topics *)

(** The first loop, [for ws in self.websockets]: [topics_set] shrinks by
    what each connection held, and [existing] is deleted key by key. *)
Fixpoint remove_keys (topics_set : gset string) (wss : list Websocket)
  : list Websocket :=
  match wss with
  | [] => []
  | ws :: rest =>
      let existing := topics_set ∩ dom (topics ws) in
      if decide (existing = ∅)
      then ws :: remove_keys topics_set rest
      else
        set_topics_changed true
          (set_topics (set_fold delete (topics ws) existing) ws)
        :: remove_keys (topics_set ∖ existing) rest
  end.

(** [sum(len(ws.topics) for ws in self.websockets)]. *)
Definition total (wss : list Websocket) : nat :=
  sum_list_with (λ ws, size (topics ws)) wss.

(** [ws.topics.values()] as a list.  The list is only ever passed on to
    [add_topics], which turns it into a set, so its order is immaterial. *)
Definition topic_values_list (w : Websocket) : list WebsocketTopic :=
  (map_to_list (topics w)).*2.

(** The consolidation loop
    [while self.websockets and sum(...) <= (len(self.websockets) - 1) * WS_TOPICS_LIMIT].
    [pop()] takes connections off the end of the list, so the loop is
    written over the reversed list [rev_wss], last connection first. *)
Fixpoint consolidate (rev_wss : list Websocket)
    (recycled_topics : list WebsocketTopic) (evs : list Event)
  : list Websocket * list WebsocketTopic * list Event :=
  match rev_wss with
  | [] => ([], recycled_topics, evs)
  | ws :: rest =>
      if decide (total (reverse rev_wss)
                 ≤ (length rev_wss - 1) * WS_TOPICS_LIMIT)
      then consolidate rest (recycled_topics ++ topic_values_list ws)
             (evs ++ [CreateTask (StopTask ws true)])
      else (rev_wss, recycled_topics, evs)
  end.

Definition remove_topics (p : WebsocketPool) (topics : list string)
  : WebsocketPool * list Event :=
  let wss := remove_keys (list_to_set topics) (websockets p) in
  let '(rev_wss, recycled_topics, evs) := consolidate (reverse wss) [] [] in
  (mkPool (_running p) (reverse rev_wss),
   evs ++ match recycled_topics with
          | [] => []
          | _ :: _ => [CreateTask (AddTopicsTask recycled_topics)]
          end).


(** ** Websocket: the handling task *)

(** How a coroutine of the model ends: it returns, it raises, or it is
    left suspended at an [await] that the inputs at hand do not complete
    (no transport published yet, no further frame, no further
    connection). *)
Inductive Outcome := Returned | Raised (e : Exn) | Suspended.

(** [Websocket.request_reconnect], [now] being its reading of [time()]. *)
Definition request_reconnect (now : Z) (w : Websocket) : Websocket :=
  set_reconnect_requested true (set_next_ping now w).

(** [Websocket.stop] as far as it writes the fields: the early return when
    already closed, else [self._closed.set()]. *)
Definition stop (w : Websocket) : Websocket :=
  if _closed w then w else set_closed true w.

(** [Websocket.send]: waits for the transport, adds a nonce to every
    message but a PING, and hands the message to the transport.  [nonce]
    is what [create_nonce(CHARS_ASCII, 30)] draws when it is called. *)
Definition send (nonce : string) (message : Message) (w : Websocket)
  : list Event * Outcome :=
  match _ws w with
  | None => ([], Suspended)
  | Some ws =>
      let message :=
        if decide (msg_type message ≠ "PING"%string)
        then mkMessage (msg_type message) (msg_data message) (Some nonce)
        else message in
      ([WsSend ws message], Returned)
  end.

(** [Websocket._handle_ping]: [now] is its reading of [time()], [now_rr]
    the later reading inside [request_reconnect]. *)
Definition _handle_ping (now now_rr : Z) (w : Websocket)
  : Websocket * list Event * Outcome :=
  if decide (_next_ping w ≤ now)%Z then
    let w1 :=
      set_max_pong (now + PING_TIMEOUT)
        (set_next_ping (now + PING_INTERVAL) w) in
    let '(evs, out) := send ""%string (mkMessage "PING" None None) w1 in
    (w1, evs, out)
  else if decide (_max_pong w ≤ now)%Z then
    (request_reconnect now_rr w, [], Returned)
  else (w, [], Returned).

(** [Websocket._handle_topics].  [access_token] is the credential of the
    [auth_state] that [get_auth()] returns, [nonce1] and [nonce2] are the
    draws of the two calls of [send], and [order] is the iteration order of
    the sets [removed] and [added]. *)
Definition _handle_topics
    (order : gset WebsocketTopic → list WebsocketTopic)
    (access_token nonce1 nonce2 : string) (w : Websocket)
  : Websocket * list Event * Outcome :=
  if negb (_topics_changed w) then (w, [], Returned)
  else
    let w1 := set_topics_changed false w in
    let evs0 := [GuiUpdate (_idx w1) None (Some (size (topics w1)))] in
    let current : gset WebsocketTopic := map_img (topics w1) in
    let removed := _submitted w1 ∖ current in
    let '(w2, evs2, out2) :=
      if decide (removed = ∅) then (w1, [], Returned)
      else
        match send nonce1
                (mkMessage "UNLISTEN"
                   (Some (str <$> order removed, access_token)) None) w1 with
        | (evs, Returned) =>
            (set_submitted (_submitted w1 ∖ removed) w1, evs, Returned)
        | (evs, out) => (w1, evs, out)
        end in
    match out2 with
    | Returned =>
        let added := current ∖ _submitted w2 in
        if decide (added = ∅) then (w2, evs0 ++ evs2, Returned)
        else
          match send nonce2
                  (mkMessage "LISTEN"
                     (Some (str <$> order added, access_token)) None) w2 with
          | (evs, Returned) =>
              (set_submitted (_submitted w2 ∪ added) w2,
               evs0 ++ evs2 ++ evs, Returned)
          | (evs, out) => (w2, evs0 ++ evs2 ++ evs, out)
          end
    | _ => (w2, evs0 ++ evs2, out2)
    end.

(** aiohttp.WSMsgType and the frame returned by [ws.receive]. *)
Inductive WSMsgType :=
| CONTINUATION | TEXT | BINARY | PING | PONG | CLOSE | CLOSING | CLOSED
| ERROR.

Record WSMessage := mkWSMessage {
  type : WSMsgType;
  data : string;
}.

(** What [await ws.receive(timeout=1.0)] does: it raises
    [asyncio.TimeoutError] or returns a frame. *)
Inductive Received :=
| ReceiveTimeout
| ReceiveFrame (raw_message : WSMessage).

(** Python on decoded JSON: [d.get(key)], [d[key]] and [x == "text"]. *)
Fixpoint dict_lookup (key : string) (fields : list (string * JsonType))
  : option JsonType :=
  match fields with
  | [] => None
  | (k, v) :: rest => if decide (k = key) then Some v else dict_lookup key rest
  end.

Definition json_get (key : string) (j : JsonType) : Exn + option JsonType :=
  match j with
  | JObject fields => inr (dict_lookup key fields)
  | _ => inl AttributeError
  end.

Definition json_item (key : string) (j : JsonType) : Exn + JsonType :=
  match j with
  | JObject fields =>
      match dict_lookup key fields with
      | Some v => inr v
      | None => inl KeyError
      end
  | _ => inl TypeError
  end.

Definition json_is (text : string) (o : option JsonType) : bool :=
  match o with
  | Some (JString s) => bool_decide (s = text)
  | _ => false
  end.

(** The MESSAGE branch of [_handle_recv]:
    [if topic := self.topics.get(message["data"]["topic"])] and then
    [create_task(topic(json.loads(message["data"]["message"])))]. *)
Definition dispatch (message : JsonType) (w : Websocket)
  : Websocket * list Event * Outcome :=
  match json_item "data" message with
  | inl e => (w, [], Raised e)
  | inr d =>
      match json_item "topic" d with
      | inl e => (w, [], Raised e)
      | inr (JArray _) | inr (JObject _) =>
          (w, [], Raised TypeError)                     (* unhashable key *)
      | inr (JString key) =>
          match topics w !! key with
          | None => (w, [], Returned)
          | Some topic =>
              match json_item "message" d with
              | inl e => (w, [], Raised e)
              | inr (JString text) =>
                  match json_loads text with
                  | None => (w, [], Raised JSONDecodeError)
                  | Some payload => (w, [TopicCall topic payload], Returned)
                  end
              | inr _ => (w, [], Raised TypeError)
              end
          end
      | inr _ => (w, [], Returned)              (* a key no topic map has *)
      end
  end.

(** [Websocket._handle_recv]: [received] is the outcome of
    [ws.receive(timeout=1.0)], [now_rr] the reading of [time()] inside
    [request_reconnect]. *)
Definition _handle_recv (received : Received) (now_rr : Z) (w : Websocket)
  : Websocket * list Event * Outcome :=
  match _ws w with
  | None => (w, [], Suspended)
  | Some ws =>
      match received with
      | ReceiveTimeout => (w, [], Returned)
      | ReceiveFrame raw_message =>
          match type raw_message with
          | TEXT =>
              match json_loads (data raw_message) with
              | None => (w, [], Raised JSONDecodeError)
              | Some message =>
                  match json_get "type" message with
                  | inl e => (w, [], Raised e)
                  | inr ty =>
                      if json_is "MESSAGE" ty then dispatch message w
                      else if json_is "PONG" ty then
                        (set_max_pong (_next_ping w) w, [], Returned)
                      else if json_is "RECONNECT" ty then
                        (request_reconnect now_rr w, [], Returned)
                      else (w, [], Returned)
                  end
              end
          | CLOSE | CLOSED | CLOSING | ERROR =>
              (w, [], Raised WebsocketClosed)
          | _ => (w, [], Returned)
          end
      end
  end.

(** Calls that other tasks make on the connection while its handling task
    is suspended in [receive]. *)
Inductive Signal :=
| SigStop                                (* Websocket.stop *)
| SigRequestReconnect (now : Z).         (* Websocket.request_reconnect *)

Definition deliver (w : Websocket) (s : Signal) : Websocket :=
  match s with
  | SigStop => stop w
  | SigRequestReconnect now => request_reconnect now w
  end.

(** What one pass through the inner loop consumes. *)
Record Inputs := mkInputs {
  in_now : Z;                    (* time() in _handle_ping *)
  in_now_ping_rr : Z;            (* time() in its request_reconnect *)
  in_access_token : string;      (* get_auth() in _handle_topics *)
  in_nonce1 : string;            (* create_nonce() for UNLISTEN *)
  in_nonce2 : string;            (* create_nonce() for LISTEN *)
  in_signals : list Signal;      (* other tasks, during receive *)
  in_received : Received;        (* ws.receive(timeout=1.0) *)
  in_now_recv_rr : Z;            (* time() in request_reconnect on RECONNECT *)
}.

(** Sequencing: the second coroutine runs when the first returned. *)
Definition and_then (r : Websocket * list Event * Outcome)
    (k : Websocket → Websocket * list Event * Outcome)
  : Websocket * list Event * Outcome :=
  match r with
  | (w1, evs1, Returned) => let '(w2, evs2, out) := k w1 in (w2, evs1 ++ evs2, out)
  | _ => r
  end.

(** The body of the inner loop of [_handle]. *)
Definition iteration (order : gset WebsocketTopic → list WebsocketTopic)
    (inp : Inputs) (w : Websocket) : Websocket * list Event * Outcome :=
  and_then (_handle_ping (in_now inp) (in_now_ping_rr inp) w) (λ w1,
  and_then (_handle_topics order (in_access_token inp) (in_nonce1 inp)
              (in_nonce2 inp) w1) (λ w2,
  _handle_recv (in_received inp) (in_now_recv_rr inp)
    (foldl deliver w2 (in_signals inp)))).

(** [while not self._reconnect_requested.is_set()]. *)
Fixpoint inner_loop (order : gset WebsocketTopic → list WebsocketTopic)
    (inputs : list Inputs) (w : Websocket)
  : Websocket * list Event * Outcome :=
  if _reconnect_requested w then (w, [], Returned)
  else
    match inputs with
    | [] => (w, [], Suspended)
    | inp :: rest => and_then (iteration order inp w) (inner_loop order rest)
    end.

(** The head of the body of [async for websocket in ...]. *)
Definition connected (websocket : Transport) (w : Websocket)
  : Websocket * list Event :=
  (set_topics_changed true
     (set_reconnect_requested false (set_ws (Some websocket) w)),
   [WsSet websocket; GuiUpdate (_idx w) (Some Connected) None]).

(** The [finally] block. *)
Definition finally (w : Websocket) : Websocket * list Event :=
  (set_submitted ∅ (set_ws None w), [WsClear]).

(** How the body of [async for] is left. *)
Inductive SessionExit := Continue | Break | Propagate (e : Exn) | Pending.

(** One pass through the body of [async for websocket in ...]. *)
Definition session (order : gset WebsocketTopic → list WebsocketTopic)
    (websocket : Transport) (inputs : list Inputs) (w : Websocket)
  : Websocket * list Event * SessionExit :=
  let '(w1, evs1) := connected websocket w in
  let '(w2, evs2, out) := inner_loop order inputs w1 in
  let '(w3, evs3) := finally w2 in
  match out with
  | Suspended => (w2, evs1 ++ evs2, Pending)
  | Returned => (w3, evs1 ++ evs2 ++ evs3, Continue)
  | Raised WebsocketClosed =>
      (w3, evs1 ++ evs2 ++ evs3, if _closed w2 then Break else Continue)
  | Raised e => (w3, evs1 ++ evs2 ++ evs3, Propagate e)
  end.

(** [async for websocket in self._backoff_connect(...)]: [connections] are
    the transports the generator yields, each with the inputs of its
    session; [exhausted] tells whether the generator ends after them (its
    [except RuntimeError: break]) or is still trying to connect. *)
Fixpoint connect_loop (order : gset WebsocketTopic → list WebsocketTopic)
    (connections : list (Transport * list Inputs)) (exhausted : bool)
    (w : Websocket) : Websocket * list Event * Outcome :=
  match connections with
  | [] => (w, [], if exhausted then Returned else Suspended)
  | (websocket, inputs) :: rest =>
      let '(w1, evs1, exit) := session order websocket inputs w in
      match exit with
      | Continue =>
          let '(w2, evs2, out) := connect_loop order rest exhausted w1 in
          (w2, evs1 ++ evs2, out)
      | Break => (w1, evs1, Returned)
      | Propagate e => (w1, evs1, Raised e)
      | Pending => (w1, evs1, Suspended)
      end
  end.

(** [Websocket._handle], once the session is logged in. *)
Definition _handle (order : gset WebsocketTopic → list WebsocketTopic)
    (connections : list (Transport * list Inputs)) (exhausted : bool)
    (w : Websocket) : Websocket * list Event * Outcome :=
  let evs0 := [GuiUpdate (_idx w) (Some Initializing) None] in
  let '(w1, evs1, out) :=
    connect_loop order connections exhausted (set_closed false w) in
  match out with
  | Returned =>
      (w1, evs0 ++ evs1 ++ [GuiUpdate (_idx w1) (Some Disconnected) None],
       Returned)
  | _ => (w1, evs0 ++ evs1, out)
  end.

(** The transport slot as a list of events drives it: every [WsSet] finds
    the slot clear. *)
Fixpoint published_on_clear (slot : option Transport) (evs : list Event)
  : Prop :=
  match evs with
  | [] => True
  | WsSet tr :: rest => slot = None ∧ published_on_clear (Some tr) rest
  | WsClear :: rest => published_on_clear None rest
  | _ :: rest => published_on_clear slot rest
  end.

Fixpoint slot_after (slot : option Transport) (evs : list Event)
  : option Transport :=
  match evs with
  | [] => slot
  | WsSet tr :: rest => slot_after (Some tr) rest
  | WsClear :: rest => slot_after None rest
  | _ :: rest => slot_after slot rest
  end.

(** The messages handed to the transport, in order. *)
Definition sent (evs : list Event) : list Message :=
  omap (λ e, match e with WsSend _ m => Some m | _ => None end) evs.

(** ** The pool as a transition system *)

(** The states a pool goes through when its calls run one at a time:
    every [add_topics] step is a whole call, from its start to its return,
    that no other call of the pool overlaps (on a pool that is not running
    [add_topics] never suspends, so every call is such a call).  Besides
    [add_topics] and [remove_topics], [start] and [stop] flip the running
    flag, and the handling task of a connection (and [Websocket.start] and
    [Websocket.stop]) rewrites the fields of that connection, never its
    topic map.  Calls of [add_topics] that overlap on a running pool are
    outside this system; they are modelled by [add_topics_begin] and
    [add_topics_resume]. *)
Inductive reachable : WebsocketPool → Prop :=
| reachable_init :
    reachable WebsocketPool_init
| reachable_add_topics order time p topics :
    (∀ s, order s ≡ₚ elements s) →
    reachable p →
    reachable (add_topics order time p topics).1.2
| reachable_remove_topics p topics :
    reachable p →
    reachable (remove_topics p topics).1
| reachable_running p b :
    reachable p →
    reachable (mkPool b (websockets p))
| reachable_connection p i w w' :
    reachable p →
    websockets p !! i = Some w →
    topics w' = topics w →
    reachable (mkPool (_running p) (<[i := w']> (websockets p))).

(** ** Invariants of the pool *)

(** Every key of a topic map is the string form of its topic. *)
Definition keys_ok (w : Websocket) : Prop :=
  map_Forall (λ k t, k = str t) (topics w).

(** No key is held by two connections. *)
Definition unique_keys (wss : list Websocket) : Prop :=
  ∀ i j wi wj, i ≠ j → wss !! i = Some wi → wss !! j = Some wj →
    dom (topics wi) ## dom (topics wj).

Definition within_limit (w : Websocket) : Prop :=
  size (topics w) ≤ WS_TOPICS_LIMIT.

(** The string forms of all topics a list of connections holds. *)
Definition pool_keys (wss : list Websocket) : gset string :=
  ⋃ ((λ w, dom (topics w)) <$> wss).


(** ** Notions used in the proofs *)

(** What [fill] took out of [pending], inserted in order. *)
Definition insert_all (taken : list WebsocketTopic)
    (m : gmap string WebsocketTopic) : gmap string WebsocketTopic :=
  foldl (λ acc t, <[str t := t]> acc) m taken.

Definition pool_ok (wss : list Websocket) : Prop :=
  Forall keys_ok wss ∧ unique_keys wss ∧ Forall within_limit wss.

(** [pending] holds no topic whose string form is a key of the pool. *)
Definition fresh (pending : list WebsocketTopic) (wss : list Websocket)
  : Prop :=
  ∀ t, t ∈ pending → str t ∉ pool_keys wss.

Definition capacity_error : Exn :=
  MinerException "Maximum topics limit has been reached"%string.

(** [wss'] has, position by position, the connections of [wss] with
    possibly fewer topics, and possibly fewer connections at the end. *)
Definition shrinks (wss' wss : list Websocket) : Prop :=
  ∀ i w', wss' !! i = Some w' →
    ∃ w, wss !! i = Some w ∧ topics w' ⊆ topics w.

(** An event that does not touch the transport slot. *)
Definition no_slot_event (e : Event) : Prop :=
  match e with
  | WsSet _ | WsClear => False
  | _ => True
  end.

(** A step that keeps the topic map and the transport slot, and whose
    events do not touch the slot. *)
Definition frame_ok (w : Websocket) (r : Websocket * list Event * Outcome)
  : Prop :=
  topics r.1.1 = topics w ∧ _ws r.1.1 = _ws w ∧ _idx r.1.1 = _idx w ∧
  Forall no_slot_event r.1.2.

(** ** Notions used in the further properties *)

(** Topic [t] is held by a connection of [wss]. *)
Definition held (wss : list Websocket) (t : WebsocketTopic) : Prop :=
  ∃ w key, w ∈ wss ∧ topics w !! key = Some t.

(** [w'] is [w] with another topic map and the topics-changed flag set:
    what the pool does to a connection it serves. *)
Definition touched (w w' : Websocket) : Prop :=
  w' = set_topics_changed true (set_topics (topics w') w).

(** The consolidation loop would not pop anything off [wss]. *)
Definition tight (wss : list Websocket) : Prop :=
  wss = [] ∨ ¬ total wss ≤ (length wss - 1) * WS_TOPICS_LIMIT.

(** A message of the wire protocol as the handling task builds it: a PING
    has neither data nor nonce; a LISTEN or UNLISTEN has a non-empty topic
    list and a nonce. *)
Definition good_message (m : Message) : Prop :=
  match msg_data m with
  | None => msg_type m = "PING"%string ∧ msg_nonce m = None
  | Some (l, _) =>
      (msg_type m = "LISTEN"%string ∨ msg_type m = "UNLISTEN"%string)
      ∧ l ≠ [] ∧ is_Some (msg_nonce m)
  end.

(** An event of a step of the inner loop, the transport slot holding
    [slot]: it leaves the slot alone, and what it sends goes to the
    transport of the slot. *)
Definition step_event (slot : option Transport) (e : Event) : Prop :=
  match e with
  | WsSet _ | WsClear => False
  | WsSend tr _ => slot = Some tr
  | _ => True
  end.

(** Every message is handed to the transport that is published at that
    moment. *)
Fixpoint sends_to_live (slot : option Transport) (evs : list Event)
  : Prop :=
  match evs with
  | [] => True
  | WsSet tr :: rest => sends_to_live (Some tr) rest
  | WsClear :: rest => sends_to_live None rest
  | WsSend tr _ :: rest => slot = Some tr ∧ sends_to_live slot rest
  | _ :: rest => sends_to_live slot rest
  end.

(** The subscriptions of the remote end, by string form, after it has
    received what a list of events sent: a LISTEN adds its topics, an
    UNLISTEN takes its topics away. *)
Fixpoint remote_after (subscribed : gset string) (evs : list Event)
  : gset string :=
  match evs with
  | [] => subscribed
  | WsSend _ m :: rest =>
      match msg_data m with
      | Some (l, _) =>
          if decide (msg_type m = "LISTEN"%string)
          then remote_after (subscribed ∪ list_to_set l) rest
          else if decide (msg_type m = "UNLISTEN"%string)
          then remote_after (subscribed ∖ list_to_set l) rest
          else remote_after subscribed rest
      | None => remote_after subscribed rest
      end
  | _ :: rest => remote_after subscribed rest
  end.

(** With the topics-changed flag clear, the submitted set is the set of
    the topics held. *)
Definition synced (w : Websocket) : Prop :=
  _topics_changed w = false → _submitted w = map_img (topics w).

(** ** WebsocketPool.start and WebsocketPool.stop *)

(** What [Websocket.stop] does besides writing [_closed]. *)
Inductive StopEvent :=
| WsClose (tr : Transport)            (* await ws.close() *)
| AwaitHandleTask (idx : nat)         (* wait_for(self._handle_task, 2) *)
| GuiRemove (idx : nat).              (* gui.websockets.remove(idx) *)

(** [Websocket.stop(remove=...)]: nothing at all when the connection is
    closed already. *)
Definition Websocket_stop (remove : bool) (w : Websocket)
  : Websocket * list StopEvent :=
  if _closed w then (w, [])
  else
    (set_closed true w,
     match _ws w with Some ws => [WsClose ws] | None => [] end
     ++ (if _handle_task w then [AwaitHandleTask (_idx w)] else [])
     ++ (if remove then [GuiRemove (_idx w)] else [])).

(** [WebsocketPool.start]: the connections are started together; the
    events are listed in the order of the connections. *)
Definition WebsocketPool_start (p : WebsocketPool)
  : WebsocketPool * list Event :=
  (mkPool true (start <$> websockets p),
   (λ w, AwaitStart (_idx w)) <$> websockets p).

(** [WebsocketPool.stop(clear_topics=...)]. *)
Definition WebsocketPool_stop (clear_topics : bool) (p : WebsocketPool)
  : WebsocketPool * list StopEvent :=
  (mkPool false ((λ w, (Websocket_stop clear_topics w).1) <$> websockets p),
   websockets p ≫= (λ w, (Websocket_stop clear_topics w).2)).

(** A step mirrors the remote end: after what it sent, the subscriptions
    of the remote end are the submitted set. *)
Definition mirrors (w : Websocket) (r : Websocket * list Event * Outcome)
  : Prop :=
  remote_after (set_map str (_submitted w)) r.1.2
  = set_map str (_submitted r.1.1).

(** ** Command-line arguments ([main.py]) *)

(** The levels of Python's [logging] module that the code names. *)
Definition DEBUG : Z := 10.
Definition NOTSET : Z := 0.

Record ParsedArgs := mkParsedArgs {
  _verbose : Z;
  log : bool;
  tray : bool;
  dump : bool;
  headless : bool;
  _debug_ws : bool;
  _debug_gql : bool;
}.

(** [LOGGING_LEVELS] comes from [constants], a dictionary from a count of
    [-v] flags to a level; it is an argument here. *)
Definition logging_level (LOGGING_LEVELS : gmap Z Z) (a : ParsedArgs) : Z :=
  default DEBUG (LOGGING_LEVELS !! Z.min (_verbose a) 4).

Definition debug_ws (a : ParsedArgs) : Z :=
  if _debug_ws a then DEBUG else NOTSET.

Definition debug_gql (a : ParsedArgs) : Z :=
  if _debug_gql a then DEBUG else NOTSET.

(** ** Settings ([settings.py]) *)

Section SettingsModel.

(** The values of the settings dictionary are Python objects of several
    types; they are kept abstract, with Python's [==] on them as
    [py_eq] ([!=] is its negation on the types the settings hold) and
    Python's [None] as [PyNone]. *)
Context {Value : Type}.
Variable py_eq : Value → Value → bool.
Variable PyNone : Value.

Record Settings := mkSettings {
  _args : ParsedArgs;
  _dirty : bool;
  _data : gmap string Value;
}.

(** What [save] does to the outside: one call of [json_save] with the
    dictionary. *)
Inductive SaveEvent :=
  | JsonSave (data : gmap string Value).

(** [self._data.get(key, default)] *)
Definition _get (key : string) (default : Value) (s : Settings) : Value :=
  from_option id default (_data s !! key).

(** [if self._data.get(key) != value: self._data[key] = value;
    self._dirty = True] *)
Definition _set (key : string) (value : Value) (s : Settings) : Settings :=
  if negb (py_eq (from_option id PyNone (_data s !! key)) value)
  then mkSettings (_args s) true (<[key := value]> (_data s))
  else s.

(** [if self._dirty or force: json_save(SETTINGS_PATH, self._data,
    sort=True); self._dirty = False] *)
Definition save (force : bool) (s : Settings) : Settings * list SaveEvent :=
  if _dirty s || force
  then (mkSettings (_args s) false (_data s), [JsonSave (_data s)])
  else (s, []).

(** The properties read from the arguments. *)
Definition Settings_logging_level (LOGGING_LEVELS : gmap Z Z)
    (s : Settings) : Z :=
  logging_level LOGGING_LEVELS (_args s).

(** A run of assignments through the setters, each of which is a call of
    [_set]. *)
Definition set_all (ops : list (string * Value)) (s : Settings) : Settings :=
  foldl (λ s op, _set op.1 op.2 s) s ops.

End SettingsModel.

(* ================================================================== *)
(** * Properties *)

(** The solvers take every variable of a function type for a premise;
    the variables that a goal does not mention are kept out of their
    sight. *)
Ltac tidy := try clear json_loads; try clear str.
Ltac solve_sets := tidy; set_solver.

(** ** The inner loop [fill] *)

Lemma fill_spec pending : ∀ m m' rest,
  fill pending m = (m', rest) →
  ∃ taken, pending = taken ++ rest ∧ m' = insert_all taken m ∧
           (rest = [] ∨ ¬ size m' < WS_TOPICS_LIMIT).
Proof.
  induction pending as [|t pending IH]; intros m m' rest; simpl.
  - intros [= <- <-]. exists []. auto.
  - case_decide as Hsz.
    + intros Hf. destruct (IH _ _ _ Hf) as (taken & -> & -> & Hstop).
      exists (t :: taken). auto.
    + intros [= <- <-]. exists []. auto.
Qed.

Lemma fill_within_limit pending : ∀ m m' rest,
  fill pending m = (m', rest) →
  size m ≤ WS_TOPICS_LIMIT → size m' ≤ WS_TOPICS_LIMIT.
Proof.
  induction pending as [|t pending IH]; intros m m' rest; simpl.
  - by intros [= <- <-].
  - case_decide as Hsz.
    + intros Hf _. eapply IH; [exact Hf|].
      destruct (m !! str t) as [x|] eqn:Hl.
      * rewrite map_size_insert_Some; [lia|eauto].
      * rewrite map_size_insert_None; [lia|done].
    + by intros [= <- <-].
Qed.

Lemma insert_all_dom taken : ∀ m,
  dom (insert_all taken m) = dom m ∪ list_to_set (str <$> taken).
Proof.
  induction taken as [|t taken IH]; intros m; simpl.
  - solve_sets.
  - rewrite IH, dom_insert_L. solve_sets.
Qed.

Lemma insert_all_keys_ok taken : ∀ m,
  map_Forall (λ k t, k = str t) m →
  map_Forall (λ k t, k = str t) (insert_all taken m).
Proof.
  induction taken as [|t taken IH]; intros m Hm; simpl; [done|].
  apply IH. by apply map_Forall_insert_2.
Qed.

Lemma insert_all_size taken : ∀ m,
  NoDup (str <$> taken) →
  (∀ t, t ∈ taken → str t ∉ dom m) →
  size (insert_all taken m) = size m + length taken.
Proof.
  induction taken as [|t taken IH]; intros m Hnd Hfresh; simpl; [lia|].
  rewrite fmap_cons in Hnd. apply NoDup_cons in Hnd as [Hnotin Hnd].
  rewrite IH; [|done|].
  - rewrite map_size_insert_None; [lia|].
    apply not_elem_of_dom. apply Hfresh. left.
  - intros t' Ht'. rewrite dom_insert_L.
    assert (str t' ≠ str t).
    { intros Heq. apply Hnotin. rewrite <- Heq.
      apply list_elem_of_fmap. eauto. }
    assert (str t' ∉ dom m) by (apply Hfresh; by right).
    solve_sets.
Qed.

(** ** Lists of connections *)

Lemma elem_of_pool_keys k wss :
  k ∈ pool_keys wss ↔ ∃ w, w ∈ wss ∧ k ∈ dom (topics w).
Proof.
  unfold pool_keys. rewrite elem_of_union_list. split.
  - intros (X & HX & Hk). apply list_elem_of_fmap in HX as (w & -> & Hw).
    eauto.
  - intros (w & Hw & Hk). exists (dom (topics w)). split; [|done].
    apply list_elem_of_fmap. eauto.
Qed.

Lemma total_app wss1 wss2 : total (wss1 ++ wss2) = total wss1 + total wss2.
Proof. apply sum_list_with_app. Qed.

Lemma total_reverse wss : total (reverse wss) = total wss.
Proof. apply sum_list_with_reverse. Qed.

Lemma total_insert wss j w w' :
  wss !! j = Some w →
  total (<[j := w']> wss) + size (topics w) = total wss + size (topics w').
Proof.
  revert j. induction wss as [|x wss IH]; intros [|j]; simpl; try done.
  - intros [= ->]. unfold total. simpl. lia.
  - intros Hj. specialize (IH _ Hj). unfold total in *. simpl. lia.
Qed.

Lemma total_le_limit wss :
  Forall within_limit wss → total wss ≤ length wss * WS_TOPICS_LIMIT.
Proof.
  induction 1 as [|w wss Hw _ IH]; [done|].
  unfold within_limit in Hw. unfold total in *. simpl. lia.
Qed.


(** [k] connections from the start that are all full hold [k] times the
    limit. *)
Lemma total_full_prefix k wss :
  (∀ i, i < k → ∃ w, wss !! i = Some w
                      ∧ WS_TOPICS_LIMIT ≤ size (topics w)) →
  k * WS_TOPICS_LIMIT ≤ total wss.
Proof.
  revert wss. induction k as [|k IH]; intros wss Hfull; [simpl; lia|].
  destruct (Hfull 0) as (w & Hw & Hsz); [lia|].
  destruct wss as [|w' wss]; [done|]. simpl in Hw. injection Hw as ->.
  assert (k * WS_TOPICS_LIMIT ≤ total wss) as Hk.
  { apply IH. intros i Hi. destruct (Hfull (S i)) as (x & Hx & ?); [lia|].
    eauto. }
  unfold total in *. simpl. lia.
Qed.

Lemma unique_keys_insert wss j w' :
  unique_keys wss →
  (∀ k w, k ≠ j → wss !! k = Some w → dom (topics w') ## dom (topics w)) →
  unique_keys (<[j := w']> wss).
Proof.
  intros Hu Hnew a b wa wb Hab Ha Hb.
  destruct (decide (a = j)) as [->|Haj], (decide (b = j)) as [->|Hbj];
    try done.
  - apply list_lookup_insert_Some in Ha as [(_ & <- & _)|[? _]]; [|done].
    rewrite list_lookup_insert_ne in Hb by done. eauto.
  - apply list_lookup_insert_Some in Hb as [(_ & <- & _)|[? _]]; [|done].
    rewrite list_lookup_insert_ne in Ha by done. symmetry. eauto.
  - rewrite list_lookup_insert_ne in Ha by done.
    rewrite list_lookup_insert_ne in Hb by done. eauto.
Qed.

Lemma unique_keys_snoc wss w :
  unique_keys wss → topics w = ∅ → unique_keys (wss ++ [w]).
Proof.
  intros Hu Hw a b wa wb Hab Ha Hb.
  assert (∀ c wc, (wss ++ [w]) !! c = Some wc →
            wss !! c = Some wc ∨ topics wc = ∅) as Hcase.
  { intros c wc Hc. apply lookup_app_Some in Hc as [Hc|[_ Hc]]; [auto|].
    right. apply list_lookup_singleton_Some in Hc as [_ <-]. done. }
  destruct (Hcase _ _ Ha) as [Ha'|Ea], (Hcase _ _ Hb) as [Hb'|Eb].
  - eauto.
  - rewrite Eb. solve_sets.
  - rewrite Ea. solve_sets.
  - rewrite Ea. solve_sets.
Qed.

Lemma pool_keys_snoc wss w :
  topics w = ∅ → pool_keys (wss ++ [w]) = pool_keys wss.
Proof.
  intros Hw. unfold pool_keys.
  rewrite fmap_app, union_list_app_L. simpl. rewrite Hw. solve_sets.
Qed.

(** ** The loop of [add_topics] *)

Lemma connection_at_spec now i p j ws wss created :
  connection_at now i p = (j, ws, wss, created) →
  wss !! j = Some ws ∧
  ((websockets p !! i = Some ws ∧ wss = websockets p ∧ j = i
    ∧ created = [])
   ∨ (websockets p !! i = None ∧ wss = websockets p ++ [ws]
      ∧ j = length (websockets p) ∧ topics ws = ∅)).
Proof.
  unfold connection_at. destruct (websockets p !! i) as [w|] eqn:Hi.
  - intros [= <- <- <- <-]. split; [done|]. left. by repeat split.
  - intros [= <- <- <- <-]. split.
    + rewrite lookup_app_r by lia. by rewrite Nat.sub_diag.
    + right. repeat split. by destruct (_running p).
Qed.

Lemma pool_ok_snoc wss w : pool_ok wss → topics w = ∅ → pool_ok (wss ++ [w]).
Proof.
  intros (Hk & Hu & Hl) Hw. repeat split.
  - apply Forall_app. split; [done|]. constructor; [|done].
    unfold keys_ok. rewrite Hw. apply map_Forall_empty.
  - by apply unique_keys_snoc.
  - apply Forall_app. split; [done|]. constructor; [|done].
    unfold within_limit. rewrite Hw, map_size_empty. lia.
Qed.

(** One connection served: [fill] on the connection at position [j]. *)
Lemma serve_ok wss j ws pending m rest :
  wss !! j = Some ws →
  fill pending (topics ws) = (m, rest) →
  pool_ok wss → fresh pending wss → NoDup (str <$> pending) →
  let wss' := <[j := set_topics_changed true (set_topics m ws)]> wss in
  pool_ok wss' ∧ fresh rest wss' ∧ NoDup (str <$> rest) ∧
  total wss' + length rest = total wss + length pending ∧
  (rest = [] ∨ WS_TOPICS_LIMIT ≤ size m).
Proof.
  intros Hj Hfill (Hk & Hu & Hl) Hfresh Hnd wss'.
  destruct (fill_spec _ _ _ _ Hfill) as (taken & -> & Hm & Hstop).
  rewrite fmap_app in Hnd. apply NoDup_app in Hnd as (Hnd1 & Hnd12 & Hnd2).
  assert (ws ∈ wss) as Hin by (eapply list_elem_of_lookup_2; eauto).
  assert (∀ t, t ∈ taken ++ rest → str t ∉ dom (topics ws)) as Hfresh_ws.
  { intros t Ht Hd. apply (Hfresh t Ht). apply elem_of_pool_keys. eauto. }
  assert (dom m = dom (topics ws) ∪ list_to_set (str <$> taken)) as Hdom.
  { rewrite Hm. apply insert_all_dom. }
  assert (size m = size (topics ws) + length taken) as Hsize.
  { rewrite Hm. apply insert_all_size; [done|].
    intros t Ht. apply Hfresh_ws, elem_of_app. auto. }
  repeat split.
  - apply Forall_insert; [done|]. unfold keys_ok. simpl. rewrite Hm.
    apply insert_all_keys_ok. eapply (proj1 (Forall_forall _ _)) in Hk; eauto.
  - apply unique_keys_insert; [done|]. intros k w Hkj Hw. simpl.
    rewrite Hdom. apply disjoint_union_l. split.
    + eapply (Hu j k); eauto.
    + intros x Hx Hxw. apply elem_of_list_to_set in Hx.
      apply list_elem_of_fmap in Hx as (t & -> & Ht).
      apply (Hfresh t); [apply elem_of_app; auto|].
      apply elem_of_pool_keys. exists w. split; [|done].
      eapply list_elem_of_lookup_2; eauto.
  - apply Forall_insert; [done|]. unfold within_limit. simpl.
    eapply fill_within_limit; [exact Hfill|].
    eapply (proj1 (Forall_forall _ _)) in Hl; eauto.
  - intros t Ht Hkeys. apply elem_of_pool_keys in Hkeys as (w & Hw & Hd).
    apply list_elem_of_lookup in Hw as (k & Hw).
    apply list_lookup_insert_Some in Hw as [(-> & <- & _)|(Hkj & Hw)].
    + simpl in Hd. rewrite Hdom in Hd. apply elem_of_union in Hd as [Hd|Hd].
      * apply (Hfresh_ws t); [apply elem_of_app; auto|done].
      * apply elem_of_list_to_set in Hd. apply (Hnd12 (str t)); [done|].
        apply list_elem_of_fmap. eauto.
    + apply (Hfresh t); [apply elem_of_app; auto|].
      apply elem_of_pool_keys. exists w. split; [|done].
      eapply list_elem_of_lookup_2; eauto.
  - done.
  - pose proof (total_insert wss j ws
                  (set_topics_changed true (set_topics m ws)) Hj) as Htot.
    simpl in Htot. fold wss' in Htot. rewrite length_app. lia.
  - destruct Hstop as [->|Hstop]; [by left|right; lia].
Qed.

(** What the loop of [add_topics] establishes, from index [i] with [n]
    iterations left. *)
Lemma assign_inv time n : ∀ i pending p evs res p' evs',
  assign time n i pending p evs = (res, p', evs') →
  pool_ok (websockets p) → fresh pending (websockets p) →
  NoDup (str <$> pending) → pending ≠ [] →
  i ≤ length (websockets p) →
  pool_ok (websockets p') ∧ _running p' = _running p ∧
  length (websockets p) ≤ length (websockets p') ∧
  length (websockets p') ≤ length (websockets p) `max` (i + n) ∧
  (∀ k, k < i → websockets p' !! k = websockets p !! k) ∧
  match res with
  | None =>
      total (websockets p') = total (websockets p) + length pending
  | Some e =>
      e = capacity_error ∧
      total (websockets p') < total (websockets p) + length pending ∧
      ∀ k, i ≤ k < i + n →
        ∃ w, websockets p' !! k = Some w
             ∧ WS_TOPICS_LIMIT ≤ size (topics w)
  end.
Proof.
  induction n as [|n IH]; intros i pending p evs res p' evs'; simpl.
  - intros [= <- <- <-] Hok Hfresh Hnd Hne Hi.
    split_and!; try done; try lia.
    destruct pending; [done|]. simpl. lia.
  - destruct (connection_at (time i) i p) as [[[j ws] wss] created] eqn:Hc.
    destruct (fill pending (topics ws)) as [m rest] eqn:Hfill.
    intros Hassign Hok Hfresh Hnd Hne Hi.
    apply connection_at_spec in Hc as [Hj Hc].
    assert (pool_ok wss ∧ fresh pending wss
            ∧ total wss = total (websockets p) ∧ j = i
            ∧ length (websockets p) ≤ length wss
            ∧ length wss ≤ length (websockets p) `max` S i
            ∧ ∀ k, k < i → wss !! k = websockets p !! k)
      as (Hok1 & Hfresh1 & Htot1 & -> & Hlen1 & Hlen2 & Hpre1).
    { destruct Hc as [(Hl & -> & -> & _)|(Hl & -> & -> & Hempty)].
      - split_and!; try done; lia.
      - apply lookup_ge_None in Hl.
        split_and!.
        + by apply pool_ok_snoc.
        + intros t Ht. rewrite pool_keys_snoc by done. by apply Hfresh.
        + rewrite total_app. unfold total at 2. simpl.
          rewrite Hempty, map_size_empty. lia.
        + lia.
        + rewrite length_app. lia.
        + rewrite length_app. simpl. lia.
        + intros k Hk. rewrite lookup_app_l by lia. done. }
    destruct (serve_ok _ _ _ _ _ _ Hj Hfill Hok1 Hfresh1 Hnd)
      as (Hok2 & Hfresh2 & Hnd2 & Htot2 & Hstop).
    set (ws' := set_topics_changed true (set_topics m ws)) in *.
    assert (i < length wss) as Hilt by (eapply lookup_lt_Some; eauto).
    destruct rest as [|t rest].
    + injection Hassign as <- <- <-. simpl.
      rewrite length_insert. split_and!; try done; try lia.
      * intros k Hk. rewrite list_lookup_insert_ne by lia. auto.
      * simpl in Htot2. lia.
    + apply IH in Hassign; simpl; try done;
        [|rewrite length_insert; lia].
      destruct Hassign as (Hok3 & Hrun & Hlen3 & Hlen4 & Hpre3 & Hres).
      simpl in *. rewrite length_insert in Hlen3, Hlen4.
      split_and!; try done; try lia.
      * intros k Hk. rewrite Hpre3 by lia.
        rewrite list_lookup_insert_ne by lia. auto.
      * destruct res as [e|]; [|lia].
        destruct Hres as (-> & Hlt & Hfull). split_and!; [done|lia|].
        intros k Hk. destruct (decide (k = i)) as [->|Hki].
        -- exists ws'. rewrite Hpre3 by lia. split.
           ++ apply list_lookup_insert_eq. done.
           ++ simpl. destruct Hstop as [?|?]; [done|lia].
        -- apply Hfull. lia.
Qed.

(** ** [add_topics] as a whole *)

Section AddTopics.
Hypothesis str_inj : Inj (=) (=) str.
Variable order : gset WebsocketTopic → list WebsocketTopic.
Hypothesis order_perm : ∀ s, order s ≡ₚ elements s.

Lemma order_NoDup s : NoDup (str <$> order s).
Proof using str_inj order_perm.
  apply (NoDup_fmap_2 _). rewrite order_perm. apply NoDup_elements.
Qed.

Lemma order_length s : length (order s) = size s.
Proof using order_perm. by rewrite order_perm. Qed.

Lemma elem_of_order t s : t ∈ order s ↔ t ∈ s.
Proof using order_perm. rewrite order_perm. apply elem_of_elements. Qed.

(** A topic that no connection holds has a string form that is no key. *)
Lemma not_held_fresh t wss :
  Forall keys_ok wss →
  t ∉ ⋃ (topic_values <$> wss) → str t ∉ pool_keys wss.
Proof using str_inj.
  intros Hk Hnot Hin. apply Hnot.
  apply elem_of_pool_keys in Hin as (w & Hw & Hd).
  apply elem_of_dom in Hd as [v Hv].
  apply elem_of_union_list. exists (topic_values w). split.
  - apply list_elem_of_fmap. eauto.
  - unfold topic_values. apply elem_of_map_img. exists (str t).
    eapply (proj1 (Forall_forall _ _)) in Hk; [|exact Hw].
    specialize (Hk _ _ Hv). simpl in Hk. apply str_inj in Hk. by subst.
Qed.

Lemma add_topics_inv time p ts res p' evs :
  add_topics order time p ts = (res, p', evs) →
  pool_ok (websockets p) →
  let new := size (list_to_set ts ∖ ⋃ (topic_values <$> websockets p)
                   : gset WebsocketTopic) in
  pool_ok (websockets p') ∧ _running p' = _running p ∧
  length (websockets p) ≤ length (websockets p') ∧
  length (websockets p') ≤ length (websockets p) `max` MAX_WEBSOCKETS ∧
  match res with
  | None => total (websockets p') = total (websockets p) + new
  | Some e =>
      e = capacity_error ∧
      total (websockets p') < total (websockets p) + new ∧
      ∀ k, k < MAX_WEBSOCKETS →
        ∃ w, websockets p' !! k = Some w
             ∧ WS_TOPICS_LIMIT ≤ size (topics w)
  end.
Proof using str_inj order_perm.
  intros Hadd Hok new. unfold add_topics in Hadd.
  set (topics_set := list_to_set ts ∖ ⋃ (topic_values <$> websockets p))
    in *.
  case_decide as Hempty.
  - injection Hadd as <- <- <-. subst new. rewrite Hempty, size_empty.
    split_and!; try done; lia.
  - apply assign_inv in Hadd; try done.
    + destruct Hadd as (Hok' & Hrun & Hlen1 & Hlen2 & _ & Hres).
      rewrite order_length in Hres. simpl in Hlen2.
      split_and!; try done.
      destruct res as [e|]; [|done].
      destruct Hres as (-> & Hlt & Hfull). split_and!; try done.
      intros k Hk. apply Hfull. lia.
    + intros t Ht. apply elem_of_order in Ht.
      apply not_held_fresh; [apply Hok|]. solve_sets.
    + apply order_NoDup.
    + intros Hnil. apply Hempty. apply leibniz_equiv, elements_empty_inv.
      apply Permutation_nil_r. by rewrite <- order_perm, Hnil.
    + lia.
Qed.

End AddTopics.

(** ** [remove_topics] *)

Lemma foldr_delete_lookup (l : list string)
    (m : gmap string WebsocketTopic) k :
  foldr delete m l !! k = if decide (k ∈ l) then None else m !! k.
Proof.
  induction l as [|x l IH]; cbn [foldr].
  - rewrite decide_False; [done|]. apply not_elem_of_nil.
  - destruct (decide (x = k)) as [->|Hne].
    + rewrite lookup_delete_eq, decide_True; [done|left].
    + rewrite lookup_delete_ne, IH by done.
      destruct (decide (k ∈ l)) as [Hin|Hnin].
      * rewrite decide_True; [done|by right].
      * rewrite decide_False; [done|].
        intros [?|?]%elem_of_cons; congruence.
Qed.

Lemma set_fold_delete_lookup (X : gset string)
    (m : gmap string WebsocketTopic) k :
  set_fold delete m X !! k = if decide (k ∈ X) then None else m !! k.
Proof.
  unfold set_fold, compose. rewrite foldr_delete_lookup.
  destruct (decide (k ∈ elements X)) as [Hin|Hnin].
  - apply elem_of_elements in Hin. by rewrite decide_True.
  - rewrite elem_of_elements in Hnin. by rewrite decide_False.
Qed.

Lemma pool_ok_shrinks wss' wss : shrinks wss' wss → pool_ok wss → pool_ok wss'.
Proof.
  intros Hs (Hk & Hu & Hl). split_and!.
  - apply Forall_lookup. intros i w' Hw'.
    destruct (Hs _ _ Hw') as (w & Hw & Hsub).
    eapply Forall_lookup_1 in Hk; [|exact Hw].
    intros k v Hkv. apply (Hk k v). eapply lookup_weaken; eauto.
  - intros i j wi wj Hij Hi Hj.
    destruct (Hs _ _ Hi) as (wi0 & Hi0 & Hsubi).
    destruct (Hs _ _ Hj) as (wj0 & Hj0 & Hsubj).
    apply subseteq_dom in Hsubi, Hsubj.
    specialize (Hu i j wi0 wj0 Hij Hi0 Hj0). solve_sets.
  - apply Forall_lookup. intros i w' Hw'.
    destruct (Hs _ _ Hw') as (w & Hw & Hsub).
    eapply Forall_lookup_1 in Hl; [|exact Hw].
    unfold within_limit in *. apply map_subseteq_size in Hsub. lia.
Qed.

Lemma shrinks_take k wss : shrinks (take k wss) wss.
Proof.
  intros i w Hw. apply lookup_take_Some in Hw as [Hw _]. eauto.
Qed.

Lemma shrinks_trans wss1 wss2 wss3 :
  shrinks wss1 wss2 → shrinks wss2 wss3 → shrinks wss1 wss3.
Proof.
  intros H12 H23 i w1 Hw1.
  destruct (H12 _ _ Hw1) as (w2 & Hw2 & Hs12).
  destruct (H23 _ _ Hw2) as (w3 & Hw3 & Hs23).
  exists w3. split; [done|]. by transitivity (topics w2).
Qed.

Lemma remove_keys_length topics_set wss :
  length (remove_keys topics_set wss) = length wss.
Proof.
  revert topics_set. induction wss as [|w wss IH]; intros X; simpl; [done|].
  case_decide; simpl; by rewrite IH.
Qed.

Lemma remove_keys_shrinks topics_set wss :
  shrinks (remove_keys topics_set wss) wss.
Proof.
  revert topics_set. induction wss as [|w wss IH]; intros X; simpl.
  - by intros i w'.
  - intros [|i] w'; case_decide as Hex; simpl.
    + intros [= <-]. eauto.
    + intros [= <-]. exists w. split; [done|]. simpl.
      apply map_subseteq_spec. intros k v.
      rewrite set_fold_delete_lookup. by case_decide.
    + apply IH.
    + apply IH.
Qed.

(** The consolidation loop pops a run of connections [popped] off the end
    and keeps the rest; each popped connection passed the test of the loop
    when it was the last one, and the loop stops on an empty list or on a
    failed test. *)
Lemma consolidate_spec rev_wss : ∀ recycled evs,
  ∃ popped kept,
    rev_wss = popped ++ kept ∧
    consolidate rev_wss recycled evs =
      (kept,
       recycled ++ concat (topic_values_list <$> popped),
       evs ++ ((λ w, CreateTask (StopTask w true)) <$> popped)) ∧
    (∀ j, length kept < j ≤ length rev_wss →
       total (drop (length rev_wss - j) rev_wss)
       ≤ (j - 1) * WS_TOPICS_LIMIT) ∧
    (kept = [] ∨
     ¬ total kept ≤ (length kept - 1) * WS_TOPICS_LIMIT).
Proof.
  induction rev_wss as [|w rest IH]; intros recycled evs.
  - exists [], []. simpl. rewrite !app_nil_r.
    split_and!; [done|done| |by left]. intros j Hj. simpl in Hj. lia.
  - simpl. case_decide as Htest.
    + destruct (IH (recycled ++ topic_values_list w)
                  (evs ++ [CreateTask (StopTask w true)]))
        as (popped & kept & -> & Heq & Hpop & Hstop).
      exists (w :: popped), kept. simpl.
      rewrite Heq, <- !(assoc_L (++)). simpl.
      split_and!; [done|done| |done].
      intros j Hj. destruct (decide (j = S (length (popped ++ kept))))
        as [->|Hne].
      * rewrite Nat.sub_diag. simpl.
        rewrite total_reverse in Htest. simpl in Htest.
        replace (S (length (popped ++ kept)) - 1)
          with (length (popped ++ kept) - 0) by lia. done.
      * replace (S (length (popped ++ kept)) - j)
          with (S (length (popped ++ kept) - j)) by lia.
        simpl. apply Hpop. lia.
    + exists [], (w :: rest). simpl. rewrite !app_nil_r.
      split_and!; [done|done| |].
      * intros j Hj. lia.
      * right. rewrite total_reverse in Htest. done.
Qed.

Lemma remove_topics_spec p ks :
  let wss := remove_keys (list_to_set ks) (websockets p) in
  ∃ k, k ≤ length wss ∧
    remove_topics p ks =
      (mkPool (_running p) (take k wss),
       ((λ w, CreateTask (StopTask w true)) <$> reverse (drop k wss))
       ++ match concat (topic_values_list <$> reverse (drop k wss)) with
          | [] => []
          | t :: ts => [CreateTask (AddTopicsTask (t :: ts))]
          end) ∧
    (∀ j, k < j ≤ length wss →
       total (take j wss) ≤ (j - 1) * WS_TOPICS_LIMIT) ∧
    (k = 0 ∨ ¬ total (take k wss) ≤ (k - 1) * WS_TOPICS_LIMIT).
Proof.
  intros wss. unfold remove_topics. fold wss.
  destruct (consolidate_spec (reverse wss) [] [])
    as (popped & kept & Hsplit & -> & Hpop & Hstop).
  assert (wss = reverse kept ++ reverse popped) as Hwss.
  { rewrite <- reverse_app, <- Hsplit. by rewrite reverse_involutive. }
  assert (take (length kept) wss = reverse kept) as Htake.
  { rewrite Hwss. apply take_app_length'. by rewrite length_reverse. }
  assert (reverse (drop (length kept) wss) = popped) as Hdrop.
  { rewrite Hwss, drop_app_length' by (by rewrite length_reverse).
    apply reverse_involutive. }
  exists (length kept). rewrite Htake, Hdrop. simpl.
  split_and!.
  - rewrite Hwss, length_app, !length_reverse. lia.
  - f_equal. f_equal. by destruct (concat _).
  - intros j Hj. rewrite <- total_reverse, reverse_take.
    rewrite length_reverse in Hpop. apply Hpop. lia.
  - destruct Hstop as [->|Hstop]; [by left|right].
    by rewrite total_reverse.
Qed.

Lemma remove_topics_shrinks p ks :
  shrinks (websockets (remove_topics p ks).1) (websockets p) ∧
  _running (remove_topics p ks).1 = _running p.
Proof.
  destruct (remove_topics_spec p ks) as (k & _ & -> & _). simpl.
  split; [|done].
  eapply shrinks_trans; [apply shrinks_take|apply remove_keys_shrinks].
Qed.

Lemma shrinks_length wss' wss : shrinks wss' wss → length wss' ≤ length wss.
Proof.
  intros Hs. destruct (decide (length wss' ≤ length wss)) as [|Hgt]; [done|].
  destruct (lookup_lt_is_Some_2 wss' (length wss)) as [w' Hw']; [lia|].
  destruct (Hs _ _ Hw') as (w & Hw & _).
  apply lookup_lt_Some in Hw. lia.
Qed.

Lemma shrinks_insert wss i w w' :
  wss !! i = Some w → topics w' = topics w → shrinks (<[i := w']> wss) wss.
Proof.
  intros Hi Ht k x Hx.
  apply list_lookup_insert_Some in Hx as [(-> & <- & _)|(_ & Hx)].
  - exists w. by rewrite Ht.
  - eauto.
Qed.

(** ** Invariants of the reachable pools *)

Lemma reachable_inv p :
  Inj (=) (=) str → reachable p →
  pool_ok (websockets p) ∧ length (websockets p) ≤ MAX_WEBSOCKETS.
Proof.
  intros Hinj. induction 1 as [|order time p ts Hperm Hp [IH1 IH2]
    |p ts Hp [IH1 IH2]|p b Hp IH|p i w w' Hp [IH1 IH2] Hi Ht].
  - simpl. split; [|lia]. split_and!; try by constructor.
    by intros i j wi wj.
  - destruct (add_topics order time p ts) as [[res p'] evs] eqn:Hadd.
    simpl. destruct (add_topics_inv Hinj order Hperm _ _ _ _ _ _ Hadd IH1)
      as (Hok & _ & _ & Hlen & _).
    split; [done|lia].
  - destruct (remove_topics_shrinks p ts) as [Hs _]. split.
    + eapply pool_ok_shrinks; eauto.
    + apply shrinks_length in Hs. lia.
  - done.
  - simpl. split.
    + eapply pool_ok_shrinks; [|exact IH1]. by eapply shrinks_insert.
    + by rewrite length_insert.
Qed.



Lemma consolidate_all_empty rev_wss : ∀ recycled evs,
  Forall (λ w, topics w = ∅) rev_wss →
  consolidate rev_wss recycled evs =
    ([], recycled, evs ++ ((λ w, CreateTask (StopTask w true)) <$> rev_wss)).
Proof.
  induction rev_wss as [|w rest IH]; intros recycled evs Hall; simpl.
  - by rewrite app_nil_r.
  - apply Forall_cons in Hall as [Hw Hrest].
    rewrite decide_True.
    + rewrite IH by done. unfold topic_values_list.
      rewrite Hw, map_to_list_empty. simpl.
      by rewrite app_nil_r, <- (assoc_L (++)).
    + rewrite total_reverse. unfold total. simpl.
      rewrite Hw, map_size_empty.
      assert (sum_list_with (λ ws, size (topics ws)) rest = 0) as ->; [|lia].
      clear IH. induction Hrest as [|x l Hx _ IHl]; [done|].
      simpl. rewrite Hx, map_size_empty. lia.
Qed.

(** ** The claims about the pool *)


(** C2. The code does not keep the keys apart when calls of [add_topics]
    overlap.  On a running pool without connections, a call with the
    topic [t] suspends at [await ws.start()] with the pool unchanged; a
    second call with [t], begun meanwhile, finds [t] held nowhere and
    suspends as well; resumed one after the other, each appends its own
    connection and gives it [t].  Both calls return normally and the key
    [str t] is then held by two connections, the second of them beyond
    [MAX_WEBSOCKETS] when that is one. *)
Theorem overlapping_add_topics_share_key order time time' t :
  (∀ s, order s ≡ₚ elements s) →
  0 < MAX_WEBSOCKETS → 0 < WS_TOPICS_LIMIT →
  let p0 := (WebsocketPool_start WebsocketPool_init).1 in
  ∃ cA cB wA wB,
    (add_topics_begin order time p0 [t]).1 = (Awaiting cA, p0) ∧
    (add_topics_begin order time' p0 [t]).1 = (Awaiting cB, p0) ∧
    (add_topics_resume time cA p0).1 = (Finished None, mkPool true [wA]) ∧
    (add_topics_resume time' cB (mkPool true [wA])).1
    = (Finished None, mkPool true [wA; wB]) ∧
    topics wA = {[str t := t]} ∧ topics wB = {[str t := t]} ∧
    ¬ dom (topics wA) ## dom (topics wB) ∧
    ¬ unique_keys [wA; wB].
Proof.
  intros Hperm Hmax Hlim p0.
  assert (order (list_to_set [t] ∖ ⋃ (topic_values <$> websockets p0))
          = [t]) as Horder.
  { apply Permutation_singleton_r. rewrite Hperm. simpl.
    rewrite union_empty_r_L, difference_empty_L.
    by rewrite elements_singleton. }
  assert (list_to_set [t] ∖ ⋃ (topic_values <$> websockets p0)
          ≠ (∅ : gset WebsocketTopic)) as Hne.
  { intros Hempty. rewrite Hempty in Horder.
    apply (f_equal length) in Horder.
    pose proof (Permutation_length (Hperm ∅)) as Hlen.
    rewrite elements_empty in Hlen. simpl in *. lia. }
  assert (fill [t] ∅ = ({[str t := t]}, [])) as Hfill.
  { cbn [fill]. rewrite decide_True by (rewrite map_size_empty; lia).
    by rewrite insert_empty. }
  assert (∀ tm, (add_topics_begin order tm p0 [t]).1
                = (Awaiting
                     (mkAddTopicsCall (MAX_WEBSOCKETS - 1) 0 [t]
                        (Websocket_init 0 (tm 0))), p0)) as Hbegin.
  { intros tm. unfold add_topics_begin. rewrite decide_False by done.
    rewrite Horder. destruct MAX_WEBSOCKETS as [|n]; [lia|]. simpl.
    by rewrite Nat.sub_0_r. }
  set (served tm := set_topics_changed true
                      (set_topics {[str t := t]}
                         (start (Websocket_init 0 (tm 0))))).
  exists (mkAddTopicsCall (MAX_WEBSOCKETS - 1) 0 [t]
            (Websocket_init 0 (time 0))),
         (mkAddTopicsCall (MAX_WEBSOCKETS - 1) 0 [t]
            (Websocket_init 0 (time' 0))),
         (served time), (served time').
  split_and!; try done.
  - unfold add_topics_resume, start, set_handle_task, Websocket_init.
    cbn [call_ws call_topics_set topics]. by rewrite Hfill.
  - unfold add_topics_resume, start, set_handle_task, Websocket_init.
    cbn [call_ws call_topics_set topics]. by rewrite Hfill.
  - simpl. rewrite !dom_singleton_L. intros Hd.
    apply (Hd (str t)); by apply elem_of_singleton.
  - intros Hu. specialize (Hu 0 1 (served time) (served time')).
    simpl in Hu. rewrite !dom_singleton_L in Hu.
    apply (Hu ltac:(lia) eq_refl eq_refl (str t));
      by apply elem_of_singleton.
Qed.

Lemma elem_of_concat {A} (x : A) (ls : list (list A)) :
  x ∈ concat ls ↔ ∃ l, x ∈ l ∧ l ∈ ls.
Proof.
  tidy. induction ls as [|l ls IH]; simpl.
  - split; [by intros ?%elem_of_nil|]. by intros (l & _ & ?%elem_of_nil).
  - rewrite elem_of_app, IH. split.
    + intros [Hx|(l' & Hx & Hl')].
      * exists l. split; [done|left].
      * exists l'. split; [done|by right].
    + intros (l' & Hx & [->|Hl']%elem_of_cons); [by left|right; eauto].
Qed.

Lemma elem_of_topic_values_list w t :
  t ∈ topic_values_list w ↔ ∃ key, topics w !! key = Some t.
Proof.
  unfold topic_values_list. rewrite list_elem_of_fmap. split.
  - intros ([key v] & -> & Hin). apply elem_of_map_to_list in Hin. eauto.
  - intros [key Hkey]. exists (key, t). split; [done|].
    by apply elem_of_map_to_list.
Qed.

Lemma length_recycled popped :
  length (concat (topic_values_list <$> popped)) = total popped.
Proof.
  tidy. induction popped as [|w popped IH]; [done|].
  rewrite fmap_cons. cbn [concat total sum_list_with].
  rewrite length_app, IH. unfold topic_values_list, total.
  by rewrite length_fmap, length_map_to_list.
Qed.

(** C3. Consolidation in [remove_topics].  With [wss] the connections
    after the requested keys are deleted, the call keeps the first [k]
    connections exactly as they are and pops the others, last one first:
    every popped connection met [total <= (count - 1) * WS_TOPICS_LIMIT]
    when it was the last of the list, and the loop stopped on an empty
    list or a failed test.  Each popped connection is stopped by a
    detached task.  The recycled topics are the topics the popped
    connections hold, every one of them and nothing else, as many as the
    popped connections hold; if there are any they are passed to one
    detached [add_topics], after the stop tasks, and else no [add_topics]
    task is created. *)
Theorem remove_topics_consolidation p ks :
  let wss := remove_keys (list_to_set ks) (websockets p) in
  let p' := (remove_topics p ks).1 in
  let evs := (remove_topics p ks).2 in
  ∃ k, k ≤ length wss ∧
    websockets p' = take k wss ∧
    (∀ j, k < j ≤ length wss →
       total (take j wss) ≤ (j - 1) * WS_TOPICS_LIMIT) ∧
    (k = 0 ∨ ¬ total (take k wss) ≤ (k - 1) * WS_TOPICS_LIMIT) ∧
    let popped := reverse (drop k wss) in
    let recycled_topics := concat (topic_values_list <$> popped) in
    (∀ t, t ∈ recycled_topics ↔
          ∃ w key, w ∈ popped ∧ topics w !! key = Some t) ∧
    length recycled_topics = total popped ∧
    (total popped = 0 →
     evs = (λ w, CreateTask (StopTask w true)) <$> popped) ∧
    (total popped ≠ 0 →
     evs = ((λ w, CreateTask (StopTask w true)) <$> popped)
           ++ [CreateTask (AddTopicsTask recycled_topics)]) ∧
    evs = ((λ w, CreateTask (StopTask w true)) <$> popped)
          ++ (if decide (recycled_topics = []) then []
              else [CreateTask (AddTopicsTask recycled_topics)]).
Proof.
  intros wss p' evs. subst p' evs.
  destruct (remove_topics_spec p ks) as (k & Hk & -> & Hpop & Hstop).
  fold wss in Hk, Hpop, Hstop |- *. exists k. simpl.
  pose proof (length_recycled (reverse (drop k wss))) as Hlen.
  split_and!; try done.
  - intros t. rewrite elem_of_concat. split.
    + intros (l & Ht & (w & -> & Hw)%list_elem_of_fmap).
      apply elem_of_topic_values_list in Ht as [key Hkey]. eauto.
    + intros (w & key & Hw & Hkey).
      exists (topic_values_list w). split.
      * apply elem_of_topic_values_list. eauto.
      * apply list_elem_of_fmap. eauto.
  - intros Hzero.
    destruct (concat _) as [|x l]; [by rewrite app_nil_r|].
    simpl in Hlen. lia.
  - intros Hsome.
    destruct (concat _) as [|x l]; [simpl in Hlen; lia|done].
  - by destruct (concat _).
Qed.

(** C4. [add_topics] with topics that connections of the pool already
    hold returns normally and changes nothing: the pool, with every topic
    map, submitted set and topics-changed flag, is the same and no event
    happens. *)
Theorem add_topics_idempotent order time p ts :
  (∀ t, t ∈ ts → ∃ w key, w ∈ websockets p ∧ topics w !! key = Some t) →
  add_topics order time p ts = (None, p, []).
Proof.
  intros Hheld. unfold add_topics. rewrite decide_True; [done|].
  apply set_eq. intros t. split; [|solve_sets].
  intros [Hin Hnot]%elem_of_difference. exfalso. apply Hnot.
  apply elem_of_list_to_set in Hin.
  destruct (Hheld t Hin) as (w & key & Hw & Hkey).
  apply elem_of_union_list. exists (topic_values w). split.
  - apply list_elem_of_fmap. eauto.
  - apply elem_of_map_img. eauto.
Qed.


(** C10. When [remove_topics] leaves every topic map empty, the
    consolidation loop pops every connection: the list of connections is
    empty afterwards, every connection is stopped by a detached task, last
    one first, and no [add_topics] task is created. *)
Theorem remove_all_topics_empties_pool p ks :
  Forall (λ w, topics w = ∅) (remove_keys (list_to_set ks) (websockets p)) →
  remove_topics p ks =
    (mkPool (_running p) [],
     (λ w, CreateTask (StopTask w true))
       <$> reverse (remove_keys (list_to_set ks) (websockets p))).
Proof.
  intros Hall. unfold remove_topics.
  rewrite consolidate_all_empty by (by apply Forall_reverse).
  simpl. by rewrite app_nil_r.
Qed.

(** ** The handling task: what every step leaves alone *)

Ltac crunch :=
  repeat (simplify_eq/=; try case_match; try case_decide);
  simplify_eq/=; unfold frame_ok; simpl;
  repeat match goal with
         | |- _ ∧ _ => split
         | |- Forall _ [] => constructor
         | |- Forall _ (_ :: _) => constructor
         | |- Forall _ (_ ++ _) => apply Forall_app
         end; try done.

Lemma _handle_ping_frame now now_rr w :
  frame_ok w (_handle_ping now now_rr w).
Proof. unfold _handle_ping, send, request_reconnect. crunch. Qed.

Lemma _handle_topics_frame order access_token nonce1 nonce2 w :
  frame_ok w (_handle_topics order access_token nonce1 nonce2 w).
Proof. unfold _handle_topics, send. crunch. Qed.

Lemma dispatch_frame message w : frame_ok w (dispatch message w).
Proof. unfold dispatch. crunch. Qed.

Lemma _handle_recv_frame received now_rr w :
  frame_ok w (_handle_recv received now_rr w).
Proof.
  unfold _handle_recv, request_reconnect.
  pose proof dispatch_frame as Hd. unfold frame_ok in Hd.
  repeat case_match; try apply Hd; crunch.
Qed.

Lemma deliver_frame w signals :
  topics (foldl deliver w signals) = topics w ∧
  _ws (foldl deliver w signals) = _ws w ∧
  _idx (foldl deliver w signals) = _idx w.
Proof.
  revert w. induction signals as [|s signals IH]; intros w; [done|].
  simpl. destruct (IH (deliver w s)) as (-> & -> & ->).
  destruct s; unfold deliver, stop, request_reconnect; try case_match; done.
Qed.

Lemma and_then_frame w r k :
  frame_ok w r → (∀ w1, frame_ok w1 (k w1)) → frame_ok w (and_then r k).
Proof.
  intros (Ht & Hs & Hi & He) Hk. destruct r as [[w1 evs1] out1].
  destruct out1; simpl; try done.
  specialize (Hk w1). destruct (k w1) as [[w2 evs2] out2].
  destruct Hk as (Ht2 & Hs2 & Hi2 & He2). simpl in *.
  unfold frame_ok. simpl. split_and!; try congruence.
  by apply Forall_app.
Qed.

Lemma iteration_frame order inp w : frame_ok w (iteration order inp w).
Proof.
  unfold iteration. apply and_then_frame; [apply _handle_ping_frame|].
  intros w1. apply and_then_frame; [apply _handle_topics_frame|].
  intros w2.
  destruct (deliver_frame w2 (in_signals inp)) as (Ht & Hs & Hi).
  destruct (_handle_recv_frame (in_received inp) (in_now_recv_rr inp)
              (foldl deliver w2 (in_signals inp))) as (Ht' & Hs' & Hi' & He).
  unfold frame_ok. split_and!; congruence.
Qed.

Lemma inner_loop_frame order inputs : ∀ w,
  frame_ok w (inner_loop order inputs w).
Proof.
  induction inputs as [|inp rest IH]; intros w; simpl.
  - unfold frame_ok. by case_match.
  - case_match; [by unfold frame_ok|].
    apply and_then_frame; [apply iteration_frame|apply IH].
Qed.

(** ** The transport slot *)

Lemma published_on_clear_app evs1 : ∀ slot evs2,
  published_on_clear slot (evs1 ++ evs2) ↔
  published_on_clear slot evs1
  ∧ published_on_clear (slot_after slot evs1) evs2.
Proof.
  tidy. induction evs1 as [|e evs1 IH]; intros slot evs2; simpl; [tauto|].
  destruct e; simpl; rewrite ?IH; tauto.
Qed.

Lemma slot_after_app evs1 : ∀ slot evs2,
  slot_after slot (evs1 ++ evs2) = slot_after (slot_after slot evs1) evs2.
Proof.
  induction evs1 as [|e evs1 IH]; intros slot evs2; simpl; [done|].
  destruct e; simpl; by rewrite ?IH.
Qed.

Lemma no_slot_events slot evs :
  Forall no_slot_event evs →
  published_on_clear slot evs ∧ slot_after slot evs = slot.
Proof.
  induction 1 as [|e evs He _ IH]; simpl; [done|].
  destruct e; simpl in *; done.
Qed.

(** One session: the new transport is published on a clear slot, and
    whenever the inner loop is left the slot and the submitted set are
    cleared, with the topic map as it was. *)
Lemma session_spec order websocket inputs w w' evs exit :
  session order websocket inputs w = (w', evs, exit) →
  topics w' = topics w ∧ _idx w' = _idx w ∧
  published_on_clear None evs ∧
  slot_after None evs = _ws w' ∧
  match exit with
  | Pending => _ws w' = Some websocket
  | _ => _ws w' = None ∧ _submitted w' = ∅ ∧ ∃ evs', evs = evs' ++ [WsClear]
  end.
Proof.
  unfold session, connected, finally.
  set (w1 := set_topics_changed true _).
  destruct (inner_loop order inputs w1) as [[w2 evs2] out] eqn:Hloop.
  pose proof (inner_loop_frame order inputs w1) as (Ht & Hs & Hi & He).
  rewrite Hloop in Ht, Hs, Hi, He. simpl in Ht, Hs, Hi, He.
  destruct (no_slot_events (Some websocket) evs2 He) as [Hp Ha].
  assert (published_on_clear None
            ([WsSet websocket; GuiUpdate (_idx w) (Some Connected) None]
             ++ evs2 ++ [WsClear])
          ∧ slot_after None
              ([WsSet websocket; GuiUpdate (_idx w) (Some Connected) None]
               ++ evs2 ++ [WsClear]) = None) as [Hp' Ha'].
  { simpl. rewrite published_on_clear_app, slot_after_app, Ha. simpl.
    by split_and!. }
  simpl in Hp'. destruct Hp' as [_ Hp'].
  intros Hsess.
  destruct out as [|e|]; [|destruct e|]; simplify_eq/=;
    try destruct (_closed w2);
    split_and!; try done; try congruence;
    try (by eexists ([WsSet websocket; GuiUpdate _ _ _] ++ evs2)).
Qed.

Lemma connect_loop_spec order connections exhausted : ∀ w w' evs out,
  connect_loop order connections exhausted w = (w', evs, out) →
  topics w' = topics w ∧ _idx w' = _idx w ∧
  published_on_clear None evs.
Proof.
  induction connections as [|[websocket inputs] rest IH];
    intros w w' evs out; simpl.
  - by intros [= <- <- <-].
  - destruct (session order websocket inputs w) as [[w1 evs1] exit] eqn:Hs.
    apply session_spec in Hs as (Ht & Hi & Hp & Ha & Hexit).
    destruct exit; try (intros [= <- <- <-]; done).
    destruct (connect_loop order rest exhausted w1)
      as [[w2 evs2] out2] eqn:Hrest.
    apply IH in Hrest as (Ht2 & Hi2 & Hp2).
    intros [= <- <- <-]. split_and!; try congruence.
    apply published_on_clear_app. split; [done|].
    destruct Hexit as (Hnone & _). by rewrite Ha, Hnone.
Qed.

(** ** The claims about the handling task *)

(** C6. The keepalive step.  When [now] has reached the next scheduled
    ping, [_handle_ping] sends a PING, and stores the new schedule: the
    next ping is [PING_INTERVAL] after [now] and the pong deadline
    [PING_TIMEOUT] after [now]; no other field changes.  Otherwise, when
    [now] has reached the pong deadline, it requests a reconnect: the flag
    is set and the next ping is due at once; a PONG frame moves the
    deadline to the next ping time, after which no reconnect is requested
    before that ping.  Whenever the inner loop of [_handle] is left, the
    transport slot is cleared, so every transport is published on a clear
    slot. *)
Theorem keepalive_step :
  (∀ now now_rr w tr,
     _ws w = Some tr → (_next_ping w ≤ now)%Z →
     _handle_ping now now_rr w =
       (set_max_pong (now + PING_TIMEOUT)
          (set_next_ping (now + PING_INTERVAL) w),
        [WsSend tr (mkMessage "PING" None None)], Returned) ∧
     _next_ping (_handle_ping now now_rr w).1.1 = (now + PING_INTERVAL)%Z ∧
     _max_pong (_handle_ping now now_rr w).1.1 = (now + PING_TIMEOUT)%Z ∧
     (_handle_ping now now_rr w).1.1
     = mkWebsocket (_idx w) (_ws w) (_closed w) (_reconnect_requested w)
         (_topics_changed w) (now + PING_INTERVAL) (now + PING_TIMEOUT)
         (_handle_task w) (topics w) (_submitted w)) ∧
  (∀ now now_rr w,
     (now < _next_ping w)%Z → (_max_pong w ≤ now)%Z →
     (_handle_ping now now_rr w = (request_reconnect now_rr w, [], Returned)
      ∧ _reconnect_requested (request_reconnect now_rr w) = true) ∧
     (_handle_ping now now_rr w).1.1
     = mkWebsocket (_idx w) (_ws w) (_closed w) true
         (_topics_changed w) now_rr (_max_pong w)
         (_handle_task w) (topics w) (_submitted w)) ∧
  (∀ w tr raw fields now_rr,
     _ws w = Some tr → type raw = TEXT →
     json_loads (data raw) = Some (JObject fields) →
     dict_lookup "type" fields = Some (JString "PONG") →
     _handle_recv (ReceiveFrame raw) now_rr w
     = (set_max_pong (_next_ping w) w, [], Returned) ∧
     (_handle_recv (ReceiveFrame raw) now_rr w).1.1
     = mkWebsocket (_idx w) (_ws w) (_closed w) (_reconnect_requested w)
         (_topics_changed w) (_next_ping w) (_next_ping w)
         (_handle_task w) (topics w) (_submitted w)) ∧
  (∀ now now_rr w,
     (now < _next_ping w)%Z →
     _handle_ping now now_rr (set_max_pong (_next_ping w) w)
     = (set_max_pong (_next_ping w) w, [], Returned)) ∧
  (∀ order websocket inputs w,
     let '(w', evs, exit) := session order websocket inputs w in
     exit ≠ Pending → _ws w' = None ∧ ∃ evs', evs = evs' ++ [WsClear]) ∧
  (∀ order connections exhausted w,
     _ws w = None →
     published_on_clear (_ws w)
       (_handle order connections exhausted w).1.2).
Proof.
  split_and!.
  - intros now now_rr w tr Hws Hdue. unfold _handle_ping, send.
    rewrite decide_True by done. simpl. rewrite Hws.
    split_and!; try done.
    unfold set_max_pong, set_next_ping. simpl. by rewrite Hws.
  - intros now now_rr w Hnot Hlate. unfold _handle_ping.
    rewrite decide_False by lia. rewrite decide_True by done.
    split_and!; done.
  - intros w tr raw fields now_rr Hws Htext Hloads Hty.
    unfold _handle_recv. rewrite Hws, Htext, Hloads. simpl. rewrite Hty.
    split_and!; try done.
    unfold set_max_pong. simpl. by rewrite Hws.
  - intros now now_rr w Hnot. unfold _handle_ping. simpl.
    rewrite !decide_False by lia. done.
  - intros order websocket inputs w.
    destruct (session order websocket inputs w) as [[w' evs] exit] eqn:Hs.
    apply session_spec in Hs as (_ & _ & _ & _ & Hexit).
    intros Hne. destruct exit; try done; by destruct Hexit as (? & _ & ?).
  - intros order connections exhausted w ->. unfold _handle.
    destruct (connect_loop order connections exhausted (set_closed false w))
      as [[w1 evs1] out] eqn:Hloop.
    apply connect_loop_spec in Hloop as (_ & _ & Hp).
    destruct out; simpl; try done.
    apply published_on_clear_app. split; [done|]. done.
Qed.

(** The set algebra of [_handle_topics]. *)
Lemma sync_sets_equal (S C : gset WebsocketTopic) :
  S ∖ C = ∅ → C ∖ S = ∅ → C = S.
Proof.
  intros H1 H2. apply set_eq. intros x.
  destruct (decide (x ∈ S)), (decide (x ∈ C)); solve_sets.
Qed.

Lemma sync_sets_added (S C : gset WebsocketTopic) :
  C ∖ (S ∖ (S ∖ C)) = C ∖ S.
Proof.
  apply set_eq. intros x.
  destruct (decide (x ∈ S)), (decide (x ∈ C)); solve_sets.
Qed.

Lemma sync_sets_result (S C : gset WebsocketTopic) :
  S ∖ (S ∖ C) ∪ C ∖ S = C.
Proof.
  apply set_eq. intros x.
  destruct (decide (x ∈ S)), (decide (x ∈ C)); solve_sets.
Qed.

Lemma sync_sets_removed_only (S C : gset WebsocketTopic) :
  C ∖ S = ∅ → S ∖ (S ∖ C) = C.
Proof.
  intros H1. apply set_eq. intros x.
  destruct (decide (x ∈ S)), (decide (x ∈ C)); solve_sets.
Qed.

Lemma sync_sets_added_only (S C : gset WebsocketTopic) :
  S ∖ C = ∅ → S ∪ C ∖ S = C.
Proof.
  intros H1. apply set_eq. intros x.
  destruct (decide (x ∈ S)), (decide (x ∈ C)); solve_sets.
Qed.

(** C7, as the code has it.  When the topics-changed flag is set,
    [_handle_topics] clears it and sends an UNLISTEN with the topics of
    [submitted - current] only when that set is not empty, then a LISTEN
    with the topics of [current - submitted] only when that set is not
    empty; each message carries the credential and its own nonce draw, and
    the submitted set ends equal to the current topic set.  When the flag
    is not set nothing is sent and the state stays as it is. *)
Theorem topic_sync_step order access_token nonce1 nonce2 w tr :
  (∀ s, order s ≡ₚ elements s) →
  _ws w = Some tr →
  let current : gset WebsocketTopic := map_img (topics w) in
  let removed := _submitted w ∖ current in
  let added := current ∖ _submitted w in
  let unlisten :=
    mkMessage "UNLISTEN" (Some (str <$> order removed, access_token))
      (Some nonce1) in
  let listen :=
    mkMessage "LISTEN" (Some (str <$> order added, access_token))
      (Some nonce2) in
  (_topics_changed w = true →
     _handle_topics order access_token nonce1 nonce2 w =
       (set_submitted current (set_topics_changed false w),
        GuiUpdate (_idx w) None (Some (size (topics w)))
          :: (if decide (removed = ∅) then [] else [WsSend tr unlisten])
          ++ (if decide (added = ∅) then [] else [WsSend tr listen]),
        Returned)) ∧
  (_topics_changed w = false →
     _handle_topics order access_token nonce1 nonce2 w = (w, [], Returned)) ∧
  str <$> order removed ≡ₚ str <$> elements removed ∧
  str <$> order added ≡ₚ str <$> elements added.
Proof.
  intros Hperm Hws current removed added unlisten listen.
  split_and!; [| |by rewrite Hperm|by rewrite Hperm].
  - intros Hflag. unfold _handle_topics, send. rewrite Hflag. simpl.
    fold current. fold removed. rewrite Hws.
    destruct (decide (removed = ∅)) as [Hrem|Hrem]; simpl.
    + fold added. destruct (decide (added = ∅)) as [Hadd|Hadd]; simpl.
      * rewrite (sync_sets_equal _ _ Hrem Hadd).
        by destruct w.
      * rewrite Hws. simpl. do 2 f_equal.
        unfold set_submitted, set_topics_changed. simpl. f_equal.
        by apply sync_sets_added_only.
    + assert (current ∖ (_submitted w ∖ removed) = added) as ->
        by apply sync_sets_added.
      destruct (decide (added = ∅)) as [Hadd|Hadd]; simpl.
      * do 2 f_equal. unfold set_submitted, set_topics_changed. simpl.
        f_equal. by apply sync_sets_removed_only.
      * rewrite Hws. simpl. do 2 f_equal.
        unfold set_submitted, set_topics_changed. simpl. f_equal.
        apply sync_sets_result.
  - intros Hflag. unfold _handle_topics. by rewrite Hflag.
Qed.

(** C8, as the code has it.  A text frame that decodes to a JSON object
    whose type is none of MESSAGE, PONG and RECONNECT is ignored:
    [_handle_recv] returns and the state stays as it is; so is a receive
    timeout.  A text frame that fails to decode is not ignored: the decode
    error leaves [_handle_recv] as an exception. *)
Theorem recv_unexpected_frames w tr now_rr :
  _ws w = Some tr →
  (∀ raw fields,
     type raw = TEXT →
     json_loads (data raw) = Some (JObject fields) →
     (∀ s, dict_lookup "type" fields = Some (JString s) →
           s ≠ "MESSAGE"%string ∧ s ≠ "PONG"%string
           ∧ s ≠ "RECONNECT"%string) →
     _handle_recv (ReceiveFrame raw) now_rr w = (w, [], Returned)) ∧
  _handle_recv ReceiveTimeout now_rr w = (w, [], Returned) ∧
  (∀ raw,
     type raw = TEXT → json_loads (data raw) = None →
     _handle_recv (ReceiveFrame raw) now_rr w
     = (w, [], Raised JSONDecodeError)).
Proof.
  intros Hws. split_and!.
  - intros raw fields Htext Hloads Hty. unfold _handle_recv.
    rewrite Hws, Htext, Hloads. simpl.
    destruct (dict_lookup "type" fields) as [[| | |s| |]|]; simpl; try done.
    destruct (Hty s eq_refl) as (H1 & H2 & H3).
    by rewrite !bool_decide_eq_false_2.
  - unfold _handle_recv. by rewrite Hws.
  - intros raw Htext Hloads. unfold _handle_recv.
    by rewrite Hws, Htext, Hloads.
Qed.

(** C9. A reconnect keeps the subscriptions.  [request_reconnect] leaves
    the topic map as it is and sets the flag, and so does the RECONNECT
    frame of the server; with the flag set the inner loop is left at its
    next test; no step of the loop changes the topic map; and when the
    loop has been left that way and the next transport is published, the
    topic map is what it was, the submitted set is empty and the
    topics-changed flag is set, so that the next synchronisation sends the
    whole topic set in one LISTEN. *)
Theorem reconnect_preserves_topics :
  (∀ now w,
     topics (request_reconnect now w) = topics w ∧
     _reconnect_requested (request_reconnect now w) = true) ∧
  (∀ w tr raw fields now_rr,
     _ws w = Some tr → type raw = TEXT →
     json_loads (data raw) = Some (JObject fields) →
     dict_lookup "type" fields = Some (JString "RECONNECT") →
     _handle_recv (ReceiveFrame raw) now_rr w
     = (request_reconnect now_rr w, [], Returned)) ∧
  (∀ order inputs w,
     _reconnect_requested w = true →
     inner_loop order inputs w = (w, [], Returned)) ∧
  (∀ order inp w, topics (iteration order inp w).1.1 = topics w) ∧
  (∀ order websocket inputs websocket' w,
     (inner_loop order inputs (connected websocket w).1).2 = Returned →
     let r := connect_loop order [(websocket, inputs); (websocket', [])]
                false w in
     r.2 = Suspended ∧
     topics r.1.1 = topics w ∧ _submitted r.1.1 = ∅ ∧
     _topics_changed r.1.1 = true ∧ _reconnect_requested r.1.1 = false ∧
     _ws r.1.1 = Some websocket') ∧
  (∀ order access_token nonce1 nonce2 w tr,
     _ws w = Some tr → _submitted w = ∅ → _topics_changed w = true →
     let current : gset WebsocketTopic := map_img (topics w) in
     _handle_topics order access_token nonce1 nonce2 w =
       (set_submitted current (set_topics_changed false w),
        GuiUpdate (_idx w) None (Some (size (topics w)))
          :: (if decide (current = ∅) then []
              else [WsSend tr
                      (mkMessage "LISTEN"
                         (Some (str <$> order current, access_token))
                         (Some nonce2))]),
        Returned)).
Proof.
  split_and!.
  - done.
  - intros w tr raw fields now_rr Hws Htext Hloads Hty.
    unfold _handle_recv. rewrite Hws, Htext, Hloads. simpl. by rewrite Hty.
  - intros order inputs w Hflag. destruct inputs; simpl; by rewrite Hflag.
  - intros order inp w. apply iteration_frame.
  - intros order websocket inputs websocket' w Hexit r.
    pose proof (inner_loop_frame order inputs (connected websocket w).1)
      as (Ht & _).
    destruct (inner_loop order inputs (connected websocket w).1)
      as [[w2 evs2] out] eqn:Hloop.
    simpl in Hexit, Ht, Hloop. subst out.
    assert (session order websocket inputs w
            = (set_submitted ∅ (set_ws None w2),
               (connected websocket w).2 ++ evs2 ++ [WsClear], Continue))
      as Hsess.
    { unfold session, connected, finally. by rewrite Hloop. }
    subst r. cbn [connect_loop]. rewrite Hsess.
    unfold session, connected, finally. simpl. done.
  - intros order access_token nonce1 nonce2 w tr Hws Hsub Hflag current.
    unfold _handle_topics, send. rewrite Hflag. simpl. fold current.
    rewrite Hsub. rewrite decide_True by solve_sets. simpl. rewrite !Hsub.
    assert (current ∖ ∅ = current) as -> by solve_sets.
    assert (∅ ∪ current = current) as -> by solve_sets.
    destruct (decide (current = ∅)) as [Hcur|Hcur]; simpl.
    + unfold set_submitted, set_topics_changed. simpl.
      rewrite Hcur, <- Hsub. by destruct w.
    + by rewrite Hws.
Qed.

(* ================================================================== *)
(** * Further properties *)

(** ** A call of [add_topics] that nothing overlaps *)

Lemma assign_events time n : ∀ i pending p evs,
  assign time n i pending p evs
  = ((assign time n i pending p []).1.1,
     (assign time n i pending p []).1.2,
     evs ++ (assign time n i pending p []).2).
Proof.
  induction n as [|n IH]; intros i pending p evs; simpl.
  - by rewrite app_nil_r.
  - destruct (connection_at (time i) i p) as [[[j ws] wss] created].
    destruct (fill pending (topics ws)) as [m rest].
    destruct rest as [|t rest]; simpl; [done|].
    rewrite IH. rewrite (IH _ _ _ ([] ++ created)). simpl.
    by rewrite (assoc_L (++)).
Qed.

Lemma resume_at_once_events fuel time : ∀ s p pre evs,
  resume_at_once fuel time (s, p, pre ++ evs)
  = (λ r, (r.1.1, r.1.2, pre ++ r.2)) <$> resume_at_once fuel time (s, p, evs).
Proof.
  induction fuel as [|fuel IH]; intros [res|c] p pre evs; simpl; try done.
  destruct (add_topics_resume time c p) as [[s' p'] evs'].
  rewrite <- (assoc_L (++)). apply IH.
Qed.

Lemma add_topics_loop_events time n : ∀ i pending p evs,
  add_topics_loop time n i pending p evs
  = ((add_topics_loop time n i pending p []).1.1,
     (add_topics_loop time n i pending p []).1.2,
     evs ++ (add_topics_loop time n i pending p []).2).
Proof.
  induction n as [|n IH]; intros i pending p evs; simpl.
  - by rewrite app_nil_r.
  - destruct (websockets p !! i) as [ws|].
    + destruct (fill pending (topics ws)) as [m rest].
      destruct rest as [|t rest]; simpl; [by rewrite app_nil_r|].
      apply IH.
    + destruct (_running p); simpl; [done|].
      destruct (fill pending ∅) as [m rest].
      destruct rest as [|t rest]; simpl; [done|].
      rewrite IH. rewrite (IH _ _ _ [_]). simpl.
      by rewrite <- (assoc_L (++)).
Qed.

Lemma resume_at_once_loop time n : ∀ fuel i pending p,
  n ≤ fuel →
  resume_at_once fuel time (add_topics_loop time n i pending p [])
  = Some (assign time n i pending p []).
Proof.
  induction n as [|n IH]; intros fuel i pending p Hfuel.
  - by destruct fuel.
  - cbn [add_topics_loop assign]. unfold connection_at.
    destruct (websockets p !! i) as [ws|] eqn:Hi.
    + destruct (fill pending (topics ws)) as [m rest].
      destruct rest as [|t rest]; simpl; [by destruct fuel|].
      apply IH. lia.
    + destruct (_running p) eqn:Hrun.
      * destruct fuel as [|fuel]; [lia|].
        cbn [resume_at_once]. unfold add_topics_resume. simpl.
        rewrite ?Hrun.
        destruct (fill pending ∅) as [m rest].
        destruct rest as [|t rest]; simpl; [by destruct fuel|].
        match goal with
        | |- context [add_topics_loop time n (S i) (t :: rest) ?q []] =>
            set (p1 := q)
        end.
        destruct (add_topics_loop time n (S i) (t :: rest) p1 [])
          as [[s p2] evs2] eqn:Hloop.
        change (GuiUpdate i (Some Disconnected) None :: AwaitStart i :: evs2)
          with ([GuiUpdate i (Some Disconnected) None; AwaitStart i]
                ++ evs2).
        rewrite resume_at_once_events, <- Hloop, IH by lia. simpl.
        by rewrite (assign_events _ _ _ _ _ (_ :: _)).
      * simpl. rewrite ?Hrun.
        destruct (fill pending ∅) as [m rest].
        destruct rest as [|t rest]; simpl; [by destruct fuel|].
        match goal with
        | |- context [add_topics_loop time n (S i) (t :: rest) ?q _] =>
            set (p1 := q)
        end.
        rewrite add_topics_loop_events.
        destruct (add_topics_loop time n (S i) (t :: rest) p1 [])
          as [[s p2] evs2] eqn:Hloop. simpl.
        change (GuiUpdate i (Some Disconnected) None :: evs2)
          with ([GuiUpdate i (Some Disconnected) None] ++ evs2).
        rewrite resume_at_once_events, <- Hloop, IH by lia. simpl.
        by rewrite (assign_events _ _ _ _ _ (_ :: _)).
Qed.

Lemma add_topics_alone order time p ts :
  resume_at_once MAX_WEBSOCKETS time (add_topics_begin order time p ts)
  = Some (add_topics order time p ts).
Proof.
  unfold add_topics_begin, add_topics. case_decide.
  - by destruct MAX_WEBSOCKETS.
  - by apply resume_at_once_loop.
Qed.

Lemma add_topics_loop_not_running time n : ∀ i pending q evs,
  _running q = false →
  ∃ res, (add_topics_loop time n i pending q evs).1.1 = Finished res.
Proof.
  induction n as [|n IH]; intros i pending q evs Hq; simpl; [eauto|].
  destruct (websockets q !! i) as [ws|].
  - destruct (fill pending (topics ws)) as [m [|t rest]]; simpl; [eauto|].
    by apply IH.
  - rewrite Hq. destruct (fill pending ∅) as [m [|t rest]]; simpl;
      [eauto|]. by apply IH.
Qed.

Lemma add_topics_in_one_piece order time p ts :
  _running p = false →
  add_topics_begin order time p ts
  = (Finished (add_topics order time p ts).1.1,
     (add_topics order time p ts).1.2, (add_topics order time p ts).2).
Proof.
  intros Hrun. pose proof (add_topics_alone order time p ts) as Hall.
  destruct (add_topics_begin order time p ts) as [[s p'] evs] eqn:Hbegin.
  assert (∃ res, s = Finished res) as [res ->].
  { unfold add_topics_begin in Hbegin. case_decide.
    - injection Hbegin as <- _ _. eauto.
    - destruct (add_topics_loop_not_running time MAX_WEBSOCKETS 0
                  (order (list_to_set ts ∖ ⋃ (topic_values <$> websockets p)))
                  p [] Hrun) as [res Hres].
      rewrite Hbegin in Hres. eauto. }
  destruct MAX_WEBSOCKETS; simpl in Hall; injection Hall as <-; done.
Qed.

(** X28. A call of [add_topics] that nothing overlaps is the whole call.
    On a pool that is not running the coroutine never suspends: it runs to
    its end in one piece, with the result, the pool and the events of
    [add_topics].  On any pool, resumed each time on the pool as it left
    it, it ends after at most [MAX_WEBSOCKETS] resumptions with the
    result, the pool and the events of [add_topics]. *)
Theorem add_topics_not_overlapped order time p ts :
  (_running p = false →
   add_topics_begin order time p ts
   = (Finished (add_topics order time p ts).1.1,
      (add_topics order time p ts).1.2, (add_topics order time p ts).2)) ∧
  resume_at_once MAX_WEBSOCKETS time (add_topics_begin order time p ts)
  = Some (add_topics order time p ts).
Proof.
  split; [apply add_topics_in_one_piece|apply add_topics_alone].
Qed.

(** ** [add_topics]: what is placed and what is kept *)

Lemma insert_all_lookup_other taken : ∀ (m : gmap string WebsocketTopic) k,
  k ∉ (str <$> taken) → insert_all taken m !! k = m !! k.
Proof.
  induction taken as [|t taken IH]; intros m k Hk; simpl; [done|].
  rewrite fmap_cons in Hk. apply not_elem_of_cons in Hk as [Hne Hk].
  rewrite IH by done. by rewrite lookup_insert_ne.
Qed.

Lemma insert_all_lookup taken : ∀ (m : gmap string WebsocketTopic) t,
  NoDup (str <$> taken) → t ∈ taken →
  insert_all taken m !! str t = Some t.
Proof.
  induction taken as [|x taken IH]; intros m t Hnd Ht; simpl.
  - by apply elem_of_nil in Ht.
  - rewrite fmap_cons in Hnd. apply NoDup_cons in Hnd as [Hx Hnd].
    apply elem_of_cons in Ht as [->|Ht]; [|by apply IH].
    rewrite insert_all_lookup_other by done. apply lookup_insert_eq.
Qed.

Lemma insert_all_subseteq taken (m : gmap string WebsocketTopic) :
  (∀ t, t ∈ taken → str t ∉ dom m) → m ⊆ insert_all taken m.
Proof.
  intros Hfresh. apply map_subseteq_spec. intros k v Hkv.
  rewrite insert_all_lookup_other; [done|].
  intros Hk. apply list_elem_of_fmap in Hk as (t & -> & Ht).
  apply (Hfresh t Ht). apply elem_of_dom. eauto.
Qed.

Lemma touched_trans w w1 w2 : touched w w1 → touched w1 w2 → touched w w2.
Proof.
  destruct w, w1, w2. unfold touched, set_topics_changed, set_topics.
  simpl. congruence.
Qed.

(** The loop of [add_topics], connection by connection: a connection of the
    pool stays where it is, keeps its topics and is either left alone or
    served; every connection of the result that was not there before, or
    was served, has the flag set; and when the loop returns normally every
    pending topic is held. *)
Lemma assign_places time n : ∀ i pending p evs res p' evs',
  assign time n i pending p evs = (res, p', evs') →
  pool_ok (websockets p) → fresh pending (websockets p) →
  NoDup (str <$> pending) →
  (∀ k w, websockets p !! k = Some w →
     ∃ w', websockets p' !! k = Some w' ∧ topics w ⊆ topics w'
           ∧ (w' = w ∨ touched w w')) ∧
  (∀ k w', websockets p' !! k = Some w' →
     websockets p !! k = Some w' ∨ _topics_changed w' = true) ∧
  (res = None →
     ∀ t, t ∈ pending →
       ∃ k w', websockets p' !! k = Some w' ∧ topics w' !! str t = Some t).
Proof.
  induction n as [|n IH]; intros i pending p evs res p' evs'; simpl.
  - intros [= <- <- <-] _ _ _. split_and!; [eauto|eauto|done].
  - destruct (connection_at (time i) i p) as [[[j ws] wss] created] eqn:Hc.
    destruct (fill pending (topics ws)) as [m rest] eqn:Hfill.
    intros Hassign Hok Hfresh Hnd.
    apply connection_at_spec in Hc as [Hj Hc].
    assert (pool_ok wss ∧ fresh pending wss
            ∧ (∀ k w, websockets p !! k = Some w → wss !! k = Some w)
            ∧ (∀ k w, wss !! k = Some w → k ≠ j →
                 websockets p !! k = Some w)
            ∧ (websockets p !! j = Some ws ∨ websockets p !! j = None))
      as (Hok1 & Hfresh1 & Hold & Hnew & Hat).
    { destruct Hc as [(Hl & -> & -> & _)|(Hl & -> & -> & Hempty)].
      - split_and!; auto.
      - split_and!.
        + by apply pool_ok_snoc.
        + intros t Ht. rewrite pool_keys_snoc by done. by apply Hfresh.
        + intros k w Hk. apply lookup_app_l_Some. done.
        + intros k w Hk Hne. apply lookup_app_Some in Hk as [Hk|[Hge Hk]];
            [done|].
          apply list_lookup_singleton_Some in Hk as [Hz _]. lia.
        + right. apply lookup_ge_None. lia. }
    destruct (serve_ok _ _ _ _ _ _ Hj Hfill Hok1 Hfresh1 Hnd)
      as (Hok2 & Hfresh2 & Hnd2 & _ & _).
    destruct (fill_spec _ _ _ _ Hfill) as (taken & Hsplit & Hm & _).
    set (ws' := set_topics_changed true (set_topics m ws)) in *.
    assert (ws ∈ wss) as Hin by (eapply list_elem_of_lookup_2; eauto).
    assert (topics ws ⊆ m) as Hsub.
    { rewrite Hm. apply insert_all_subseteq. intros t Ht Hd.
      apply (Hfresh1 t); [rewrite Hsplit; apply elem_of_app; auto|].
      apply elem_of_pool_keys. eauto. }
    assert (∀ t, t ∈ taken → m !! str t = Some t) as Htaken.
    { intros t Ht. rewrite Hm. apply insert_all_lookup; [|done].
      rewrite Hsplit, fmap_app in Hnd. by apply NoDup_app in Hnd as (? & _). }
    assert (j < length wss) as Hjlt by (eapply lookup_lt_Some; eauto).
    (* the pool after this connection is served *)
    assert ((∀ k w, websockets p !! k = Some w →
               ∃ w', <[j := ws']> wss !! k = Some w' ∧ topics w ⊆ topics w'
                     ∧ (w' = w ∨ touched w w')) ∧
            (∀ k w', <[j := ws']> wss !! k = Some w' →
               websockets p !! k = Some w' ∨ _topics_changed w' = true))
      as [Hstep1 Hstep2].
    { split.
      - intros k w Hk. destruct (decide (k = j)) as [->|Hne].
        + exists ws'. rewrite list_lookup_insert_eq by done.
          destruct Hat as [Hat|Hat]; [|congruence].
          assert (w = ws) as -> by congruence.
          split_and!; [done|done|]. right. unfold touched. by destruct ws.
        + exists w. rewrite list_lookup_insert_ne by done.
          split_and!; [by apply Hold|done|by left].
      - intros k w' Hk.
        apply list_lookup_insert_Some in Hk as [(-> & <- & _)|(Hne & Hk)].
        + by right.
        + left. by apply Hnew. }
    destruct rest as [|t rest].
    + injection Hassign as <- <- <-. simpl. split_and!; [done|done|].
      intros _ t Ht. exists j, ws'.
      rewrite list_lookup_insert_eq by done. split; [done|].
      apply Htaken. rewrite Hsplit, app_nil_r in Ht. done.
    + apply IH in Hassign; [|done|done|done].
      destruct Hassign as (Hkeep & Hflag & Hplaced). simpl in *.
      split_and!.
      * intros k w Hk. destruct (Hstep1 k w Hk) as (w1 & Hw1 & Hs1 & Ht1).
        destruct (Hkeep k w1 Hw1) as (w2 & Hw2 & Hs2 & Ht2).
        exists w2. split_and!; [done|by transitivity (topics w1)|].
        destruct Ht1 as [->|Ht1]; [done|]. right.
        destruct Ht2 as [->|Ht2]; [done|]. by eapply touched_trans.
      * intros k w' Hk. destruct (Hflag k w' Hk) as [Hk1|?]; [|by right].
        by apply Hstep2.
      * intros Hres x Hx. rewrite Hsplit in Hx.
        apply elem_of_app in Hx as [Hx|Hx]; [|by apply Hplaced].
        destruct (Hkeep j ws') as (w2 & Hw2 & Hs2 & _);
          [by apply list_lookup_insert_eq|].
        exists j, w2. split; [done|].
        eapply lookup_weaken; [|exact Hs2]. by apply Htaken.
Qed.



Section AddTopicsFurther.
Hypothesis str_inj : Inj (=) (=) str.
Variable order : gset WebsocketTopic → list WebsocketTopic.
Hypothesis order_perm : ∀ s, order s ≡ₚ elements s.

(** X1. A call that nothing overlaps keeps the pool in order.  On a pool
    whose keys are the string forms of their topics, where no key is held
    by two connections, no connection is over [WS_TOPICS_LIMIT] and there
    are at most [MAX_WEBSOCKETS] connections, a call of [add_topics]
    resumed each time on the pool as it left it, and a call of
    [remove_topics], leave a pool of that kind; [remove_topics] never
    adds a connection. *)
Theorem calls_keep_pool_ok time p ts ks :
  pool_ok (websockets p) → length (websockets p) ≤ MAX_WEBSOCKETS →
  let pa := (add_topics order time p ts).1.2 in
  let pr := (remove_topics p ks).1 in
  resume_at_once MAX_WEBSOCKETS time (add_topics_begin order time p ts)
  = Some (add_topics order time p ts) ∧
  (pool_ok (websockets pa) ∧ length (websockets pa) ≤ MAX_WEBSOCKETS) ∧
  (pool_ok (websockets pr) ∧ length (websockets pr) ≤ length (websockets p)).
Proof using str_inj order_perm.
  intros Hok Hlen pa pr. subst pa pr.
  split; [apply add_topics_alone|]. split.
  - destruct (add_topics order time p ts) as [[res p'] evs] eqn:Hadd.
    pose proof (add_topics_inv str_inj order order_perm _ _ _ _ _ _ Hadd Hok)
      as (Hok' & _ & _ & Hlen' & _).
    simpl. split; [done|lia].
  - destruct (remove_topics_shrinks p ks) as [Hs _]. split.
    + by eapply pool_ok_shrinks.
    + by apply shrinks_length in Hs.
Qed.

(** X2. A call of [add_topics] that nothing overlaps, on a pool in order
    with at most [MAX_WEBSOCKETS] connections, returns normally exactly
    when the topics it does not hold yet fit into what is left of
    [MAX_WEBSOCKETS * WS_TOPICS_LIMIT]; the only exception it raises is the
    capacity error. *)
Theorem add_topics_succeeds_iff_fits time p ts :
  pool_ok (websockets p) → length (websockets p) ≤ MAX_WEBSOCKETS →
  let new := size (list_to_set ts ∖ ⋃ (topic_values <$> websockets p)
                   : gset WebsocketTopic) in
  let res := (add_topics order time p ts).1.1 in
  resume_at_once MAX_WEBSOCKETS time (add_topics_begin order time p ts)
  = Some (add_topics order time p ts) ∧
  (res = None ↔
   total (websockets p) + new ≤ MAX_WEBSOCKETS * WS_TOPICS_LIMIT) ∧
  (res = None ∨ res = Some capacity_error).
Proof using str_inj order_perm.
  intros Hok Hlen new res. subst res.
  split; [apply add_topics_alone|].
  destruct (add_topics order time p ts) as [[res p'] evs] eqn:Hadd. simpl.
  pose proof (add_topics_inv str_inj order order_perm _ _ _ _ _ _ Hadd Hok)
    as (Hok' & _ & _ & Hlen' & Hres).
  fold new in Hres. destruct Hok' as (_ & _ & Hlim).
  pose proof (total_le_limit _ Hlim) as Hle.
  destruct res as [e|].
  - destruct Hres as (-> & Hlt & Hfull).
    apply total_full_prefix in Hfull. split; [|by right].
    split; [done|]. intros Hfit. lia.
  - split; [|by left]. split; [|done]. intros _. nia.
Qed.

(** X3. When a call of [add_topics] that nothing overlaps raises, on a
    pool in order with at most [MAX_WEBSOCKETS] connections, the topics it
    had already placed stay: the pool is left with all [MAX_WEBSOCKETS]
    connections full. *)
Theorem add_topics_failure_fills_pool time p ts e :
  pool_ok (websockets p) → length (websockets p) ≤ MAX_WEBSOCKETS →
  (add_topics order time p ts).1.1 = Some e →
  let p' := (add_topics order time p ts).1.2 in
  resume_at_once MAX_WEBSOCKETS time (add_topics_begin order time p ts)
  = Some (Some e, p', (add_topics order time p ts).2) ∧
  total (websockets p') = MAX_WEBSOCKETS * WS_TOPICS_LIMIT ∧
  (∀ k, k < MAX_WEBSOCKETS →
     ∃ w, websockets p' !! k = Some w
          ∧ size (topics w) = WS_TOPICS_LIMIT).
Proof using str_inj order_perm.
  intros Hok Hlen Hres p'. subst p'.
  split.
  { rewrite add_topics_alone.
    destruct (add_topics order time p ts) as [[res p'] evs].
    simpl in *. by subst res. }
  destruct (add_topics order time p ts) as [[res p'] evs] eqn:Hadd.
  simpl in *. subst res.
  pose proof (add_topics_inv str_inj order order_perm _ _ _ _ _ _ Hadd Hok)
    as (Hok' & _ & _ & Hlen' & _ & _ & Hfull).
  destruct Hok' as (_ & _ & Hlim).
  pose proof (total_le_limit _ Hlim) as Hle.
  pose proof (total_full_prefix _ _ Hfull) as Hge.
  split; [nia|]. intros k Hk. destruct (Hfull k Hk) as (w & Hw & Hsz).
  exists w. split; [done|].
  eapply Forall_lookup_1 in Hlim; [|exact Hw]. unfold within_limit in Hlim.
  lia.
Qed.


(** X5. On a pool that is not running, where [add_topics] runs in one
    piece, it writes nothing of a connection but its topic map and its
    topics-changed flag, and it flags what it changes: a connection of the
    pool is afterwards at the same position, either as it was or with a
    larger topic map and the flag set; and every connection of the result
    is either one of the pool, unchanged, or has the flag set. *)
Theorem add_topics_touches_only_topics time p ts :
  pool_ok (websockets p) → _running p = false →
  let p' := (add_topics order time p ts).1.2 in
  (add_topics_begin order time p ts).1
  = (Finished (add_topics order time p ts).1.1, p') ∧
  _running p' = _running p ∧
  (∀ k w, websockets p !! k = Some w →
     ∃ w', websockets p' !! k = Some w' ∧ topics w ⊆ topics w'
           ∧ (w' = w ∨ touched w w')) ∧
  (∀ k w', websockets p' !! k = Some w' →
     websockets p !! k = Some w' ∨ _topics_changed w' = true).
Proof using str_inj order_perm.
  intros Hok Hrun p'. subst p'.
  split; [by rewrite add_topics_in_one_piece|].
  destruct (add_topics order time p ts) as [[res p'] evs] eqn:Hadd.
  pose proof (add_topics_inv str_inj order order_perm _ _ _ _ _ _ Hadd Hok)
    as (_ & Hrun' & _).
  simpl. split; [done|]. clear Hrun'.
  unfold add_topics in Hadd.
  case_decide as Hempty.
  - injection Hadd as <- <- <-. split; [|by left].
    intros k w Hk. exists w. split_and!; [done|done|by left].
  - apply assign_places in Hadd as (Hkeep & Hflag & _); [done|done| |].
    + intros t Ht. apply elem_of_order in Ht; [|done].
      apply not_held_fresh; [done|apply Hok|].
      by apply elem_of_difference in Ht as [_ ?].
    + by apply order_NoDup.
Qed.

End AddTopicsFurther.

(** ** [remove_topics]: what is deleted and what is kept *)

(** The deletion loop, connection by connection: a connection is left
    alone, or it loses topics and is flagged; keys outside the request are
    never deleted. *)
Lemma remove_keys_lookup wss : ∀ (X : gset string) i w',
  remove_keys X wss !! i = Some w' →
  ∃ w, wss !! i = Some w ∧
       (w' = w ∨ (touched w w' ∧ topics w' ≠ topics w)) ∧
       (∀ k, k ∉ X → topics w' !! k = topics w !! k).
Proof.
  induction wss as [|w wss IH]; intros X i w'; simpl; [done|].
  case_decide as Hex; destruct i as [|i]; simpl.
  - intros [= <-]. exists w. split_and!; [done|by left|done].
  - intros Hi. destruct (IH _ _ _ Hi) as (w0 & Hw0 & Hch & Hother). eauto.
  - intros [= <-]. exists w. split_and!; [done| |].
    + right. split; [unfold touched; by destruct w|]. simpl.
      intros Heq. apply Hex. apply set_eq. intros k.
      split; [|by intros ?%elem_of_empty].
      intros Hk. exfalso.
      assert (set_fold delete (topics w) (X ∩ dom (topics w)) !! k = None)
        as Hnone by (rewrite set_fold_delete_lookup; by rewrite decide_True).
      rewrite Heq in Hnone. apply elem_of_intersection in Hk as [_ Hk].
      apply elem_of_dom in Hk as [v Hv]. congruence.
    + intros k Hk. simpl. rewrite set_fold_delete_lookup.
      rewrite decide_False; [done|]. intros [? _]%elem_of_intersection.
      done.
  - intros Hi. destruct (IH _ _ _ Hi) as (w0 & Hw0 & Hch & Hother).
    exists w0. split_and!; [done|done|].
    intros k Hk. apply Hother. intros [? _]%elem_of_difference. done.
Qed.

Lemma unique_keys_cons w wss :
  unique_keys (w :: wss) →
  unique_keys wss ∧ dom (topics w) ## pool_keys wss.
Proof.
  intros Hu. split.
  - intros i j wi wj Hij Hi Hj. apply (Hu (S i) (S j)); auto.
  - intros k Hk (w' & Hw' & Hd)%elem_of_pool_keys.
    apply list_elem_of_lookup in Hw' as [j Hj].
    assert (dom (topics w) ## dom (topics w')) as Hdisj
      by (by apply (Hu 0 (S j))).
    by apply (Hdisj k).
Qed.

(** With no key held twice, the deletion loop deletes every requested
    key. *)
Lemma remove_keys_deletes wss : ∀ (X X' : gset string),
  unique_keys wss →
  (∀ k, k ∈ pool_keys wss → k ∈ X → k ∈ X') →
  ∀ w' k, w' ∈ remove_keys X' wss → k ∈ X → topics w' !! k = None.
Proof.
  induction wss as [|w wss IH]; intros X X' Hu Hagree w' k; simpl.
  - by intros ?%elem_of_nil.
  - apply unique_keys_cons in Hu as [Hu Hdisj].
    assert (∀ x, x ∈ pool_keys wss → x ∈ X →
                 x ∈ X' ∖ (X' ∩ dom (topics w))) as Hrest.
    { intros x Hx HX. apply elem_of_difference. split.
      - apply Hagree; [|done]. apply elem_of_pool_keys.
        apply elem_of_pool_keys in Hx as (w0 & Hw0 & Hd).
        exists w0. split; [by right|done].
      - intros [_ Hd]%elem_of_intersection. by apply (Hdisj x). }
    assert (k ∈ X → k ∈ dom (topics w) → k ∈ X') as Hhead.
    { intros HX Hd. apply Hagree; [|done]. apply elem_of_pool_keys.
      exists w. split; [by left|done]. }
    case_decide as Hex; intros Hw' HX;
      apply elem_of_cons in Hw' as [->|Hw'].
    + apply not_elem_of_dom. intros Hd.
      assert (k ∈ X' ∩ dom (topics w)) as Hin
        by (apply elem_of_intersection; auto).
      rewrite Hex in Hin. by apply elem_of_empty in Hin.
    + eapply (IH X X'); eauto. intros x Hx HxX.
      apply Hrest in HxX; [|done]. by apply elem_of_difference in HxX as [? _].
    + simpl. rewrite set_fold_delete_lookup.
      destruct (decide (k ∈ X' ∩ dom (topics w))) as [|Hnin]; [done|].
      apply not_elem_of_dom. intros Hd. apply Hnin.
      apply elem_of_intersection. auto.
    + eapply (IH X); eauto.
Qed.

(** X6. [remove_topics] loses no subscription it was not asked to remove:
    a topic held under a key outside the request is afterwards still held
    by a connection of the pool, or it is among the topics passed to the
    detached [add_topics]. *)
Theorem remove_topics_keeps_or_recycles p ks w key t :
  w ∈ websockets p → topics w !! key = Some t → key ∉ ks →
  held (websockets (remove_topics p ks).1) t ∨
  ∃ recycled, CreateTask (AddTopicsTask recycled) ∈ (remove_topics p ks).2
              ∧ t ∈ recycled.
Proof.
  intros Hw Hkey Hnot.
  destruct (remove_topics_spec p ks) as (k & Hk & -> & _). simpl.
  set (wss := remove_keys (list_to_set ks) (websockets p)) in *.
  apply list_elem_of_lookup in Hw as [i Hi].
  assert (i < length wss) as Hlt.
  { unfold wss. rewrite remove_keys_length. eapply lookup_lt_Some; eauto. }
  destruct (lookup_lt_is_Some_2 wss i Hlt) as [w1 Hw1].
  destruct (remove_keys_lookup _ _ _ _ Hw1) as (w0 & Hw0 & _ & Hother).
  assert (w0 = w) as -> by congruence.
  assert (topics w1 !! key = Some t) as Hkey1.
  { rewrite Hother; [done|]. by rewrite elem_of_list_to_set. }
  destruct (decide (i < k)) as [Hik|Hik].
  - left. exists w1, key. split; [|done].
    eapply list_elem_of_lookup_2. apply lookup_take_Some. eauto.
  - right.
    assert (t ∈ concat (topic_values_list <$> reverse (drop k wss))) as Hin.
    { apply elem_of_concat. exists (topic_values_list w1). split.
      - apply elem_of_topic_values_list. eauto.
      - apply list_elem_of_fmap. exists w1. split; [done|].
        apply elem_of_reverse.
        eapply (list_elem_of_lookup_2 _ (i - k)).
        rewrite lookup_drop. replace (k + (i - k)) with i by lia. done. }
    destruct (concat (topic_values_list <$> reverse (drop k wss)))
      as [|x recycled]; [by apply elem_of_nil in Hin|].
    exists (x :: recycled). split; [|done].
    apply elem_of_app. right. left.
Qed.

(** X7. On a pool whose keys are the string forms of their topics and
    where no key is held by two connections, [remove_topics] removes what
    it is asked to: afterwards no connection of the pool has a requested
    key, and no topic passed to the detached [add_topics] has a requested
    key as its string form. *)
Theorem remove_topics_removes p ks key :
  pool_ok (websockets p) → key ∈ ks →
  (key ∉ pool_keys (websockets (remove_topics p ks).1)) ∧
  (∀ recycled t,
     CreateTask (AddTopicsTask recycled) ∈ (remove_topics p ks).2 →
     t ∈ recycled → str t ≠ key).
Proof.
  intros Hok Hkey.
  destruct (remove_topics_spec p ks) as (k & Hk & -> & _). simpl.
  set (wss := remove_keys (list_to_set ks) (websockets p)) in *.
  assert (∀ w', w' ∈ wss → topics w' !! key = None) as Hgone.
  { intros w' Hw'.
    eapply (remove_keys_deletes _ (list_to_set ks) (list_to_set ks));
      [apply Hok|done|exact Hw'|by apply elem_of_list_to_set]. }
  assert (pool_ok wss) as (Hkeys & _).
  { eapply pool_ok_shrinks; [apply remove_keys_shrinks|done]. }
  split.
  - intros (w' & Hw' & Hd)%elem_of_pool_keys.
    apply elem_of_dom in Hd as [v Hv].
    rewrite Hgone in Hv; [done|]. by eapply subseteq_take.
  - intros recycled t Hev Ht Hstr.
    apply elem_of_app in Hev as [Hev|Hev].
    { apply list_elem_of_fmap in Hev as (? & [=] & _). }
    destruct (concat (topic_values_list <$> reverse (drop k wss)))
      as [|x l] eqn:Hcat; [by apply elem_of_nil in Hev|].
    apply list_elem_of_singleton in Hev. injection Hev as ->.
    rewrite <- Hcat in Ht.
    apply elem_of_concat in Ht as (l' & Ht & Hl').
    apply list_elem_of_fmap in Hl' as (w' & -> & Hw').
    rewrite elem_of_reverse in Hw'.
    apply elem_of_topic_values_list in Ht as [key' Hkey'].
    assert (w' ∈ wss) as Hin by (by eapply subseteq_drop).
    eapply (proj1 (Forall_forall _ _)) in Hkeys; [|exact Hin].
    specialize (Hkeys _ _ Hkey'). simpl in Hkeys. subst key'.
    rewrite Hstr, Hgone in Hkey'; done.
Qed.

(** X8. [remove_topics] writes nothing of a connection it keeps but its
    topic map and its topics-changed flag, and it sets the flag exactly
    when it deleted something: a connection of the result is the one at
    its position before, either as it was, or with fewer topics and the
    flag set. *)
Theorem remove_topics_touches_only_topics p ks k w' :
  websockets (remove_topics p ks).1 !! k = Some w' →
  _running (remove_topics p ks).1 = _running p ∧
  ∃ w, websockets p !! k = Some w ∧ topics w' ⊆ topics w ∧
       (w' = w ∨ (touched w w' ∧ topics w' ≠ topics w)).
Proof.
  destruct (remove_topics_shrinks p ks) as [Hs Hrun].
  destruct (remove_topics_spec p ks) as (n & Hn & Heq & _).
  rewrite Heq in *. simpl in *. intros Hk. split; [done|].
  destruct (Hs _ _ Hk) as (w & Hw & Hsub).
  apply lookup_take_Some in Hk as [Hk _].
  destruct (remove_keys_lookup _ _ _ _ Hk) as (w0 & Hw0 & Hch & _).
  assert (w0 = w) as -> by congruence. eauto.
Qed.

Lemma remove_keys_noop wss : ∀ (X : gset string),
  X ## pool_keys wss → remove_keys X wss = wss.
Proof.
  induction wss as [|w wss IH]; intros X Hdisj; simpl; [done|].
  assert (X ## dom (topics w) ∧ X ## pool_keys wss) as [Hw Hrest].
  { split; intros k Hk Hd; apply (Hdisj k Hk); apply elem_of_pool_keys.
    - exists w. split; [left|done].
    - apply elem_of_pool_keys in Hd as (w' & Hw' & Hd).
      exists w'. split; [by right|done]. }
  rewrite decide_True.
  - by rewrite IH.
  - apply set_eq. intros k. split; [|by intros ?%elem_of_empty].
    intros [Hk Hd]%elem_of_intersection. by destruct (Hw k).
Qed.

Lemma consolidate_tight rev_wss recycled evs :
  tight (reverse rev_wss) →
  consolidate rev_wss recycled evs = (rev_wss, recycled, evs).
Proof.
  destruct rev_wss as [|w rest]; [done|]. intros [Hnil|Htight].
  - apply (f_equal length) in Hnil. rewrite length_reverse in Hnil. done.
  - cbn [consolidate]. rewrite decide_False; [done|].
    by rewrite length_reverse in Htight.
Qed.

(** X9. On a pool where no key is held by two connections
    [remove_topics] is idempotent: a second call with the same keys
    deletes nothing, pops nothing and creates no task. *)
Theorem remove_topics_idempotent p ks :
  unique_keys (websockets p) →
  remove_topics (remove_topics p ks).1 ks = ((remove_topics p ks).1, []).
Proof.
  intros Hu.
  destruct (remove_topics_spec p ks) as (k & Hk & -> & _ & Hstop). simpl.
  set (wss := remove_keys (list_to_set ks) (websockets p)) in *.
  assert (list_to_set ks ## pool_keys (take k wss)) as Hgone.
  { intros key Hkey (w' & Hw' & Hd)%elem_of_pool_keys.
    apply elem_of_dom in Hd as [v Hv].
    rewrite (remove_keys_deletes (websockets p) (list_to_set ks)
               (list_to_set ks)) in Hv; [done|exact Hu|done| |done].
    by eapply subseteq_take. }
  assert (tight (take k wss)) as Htight.
  { destruct Hstop as [->|Hstop]; [by left|right].
    by rewrite length_take, Nat.min_l. }
  unfold remove_topics at 1. simpl.
  rewrite remove_keys_noop by done.
  rewrite consolidate_tight by (by rewrite reverse_involutive).
  simpl. by rewrite reverse_involutive.
Qed.

(** ** Consolidation finds nothing to do in a pool at rest *)

Lemma total_all_but_last_full wss w :
  last wss = Some w →
  (∀ k, S k < length wss →
     ∃ w', wss !! k = Some w' ∧ WS_TOPICS_LIMIT ≤ size (topics w')) →
  (length wss - 1) * WS_TOPICS_LIMIT + size (topics w) ≤ total wss.
Proof.
  intros Hlast Hfull.
  destruct (last_Some wss w) as [[l' ->] _]; [done|].
  rewrite length_app, total_app. simpl.
  replace (length l' + 1 - 1) with (length l') by lia.
  assert (length l' * WS_TOPICS_LIMIT ≤ total l') as Hl'.
  { apply total_full_prefix. intros i Hi.
    destruct (Hfull i) as (w' & Hw' & Hsz);
      [rewrite length_app; simpl; lia|].
    rewrite lookup_app_l in Hw' by done. eauto. }
  unfold total in *. simpl. lia.
Qed.

(** When the loop of [add_topics] lengthens the list, every connection
    but the last is full and the last one holds a topic. *)
Lemma assign_tight time n : ∀ i pending p evs res p' evs',
  assign time n i pending p evs = (res, p', evs') →
  pool_ok (websockets p) → fresh pending (websockets p) →
  NoDup (str <$> pending) → pending ≠ [] →
  i ≤ length (websockets p) → 0 < WS_TOPICS_LIMIT →
  (∀ k, k < i → ∃ w, websockets p !! k = Some w
                     ∧ WS_TOPICS_LIMIT ≤ size (topics w)) →
  length (websockets p') = length (websockets p) ∨
  ((∀ k, S k < length (websockets p') →
      ∃ w, websockets p' !! k = Some w
           ∧ WS_TOPICS_LIMIT ≤ size (topics w)) ∧
   ∃ w, last (websockets p') = Some w ∧ 0 < size (topics w)).
Proof.
  induction n as [|n IH]; intros i pending p evs res p' evs'; simpl.
  - intros [= <- <- <-] _ _ _ _ _ _ _. by left.
  - destruct (connection_at (time i) i p) as [[[j ws] wss] created] eqn:Hc.
    destruct (fill pending (topics ws)) as [m rest] eqn:Hfill.
    intros Hassign Hok Hfresh Hnd Hne Hi Hpos Hbefore.
    apply connection_at_spec in Hc as [Hj Hc].
    set (ws' := set_topics_changed true (set_topics m ws)) in *.
    assert (pool_ok wss ∧ fresh pending wss ∧ j = i
            ∧ (∀ k, k < i → wss !! k = websockets p !! k)
            ∧ total wss = total (websockets p))
      as (Hok1 & Hfresh1 & -> & Hpre & Htot1).
    { destruct Hc as [(Hl & -> & -> & _)|(Hl & -> & -> & Hempty)].
      - by split_and!.
      - apply lookup_ge_None in Hl. split_and!.
        + by apply pool_ok_snoc.
        + intros t Ht. rewrite pool_keys_snoc by done. by apply Hfresh.
        + lia.
        + intros k Hk. by rewrite lookup_app_l by lia.
        + rewrite total_app. unfold total at 2. simpl.
          rewrite Hempty, map_size_empty. lia. }
    destruct (serve_ok _ _ _ _ _ _ Hj Hfill Hok1 Hfresh1 Hnd)
      as (Hok2 & Hfresh2 & Hnd2 & Htot2 & Hstop).
    fold ws' in Hok2, Hfresh2, Htot2.
    pose proof (total_insert wss i ws ws' Hj) as Htot3. simpl in Htot3.
    assert (i < length wss) as Hilt by (eapply lookup_lt_Some; eauto).
    assert (0 < length pending) as Hlenp by (destruct pending; simpl; [done|lia]).
    (* connections before [i] are still full after this one is served *)
    assert (∀ k, k < S i → ∃ w, <[i := ws']> wss !! k = Some w
                     ∧ (rest ≠ [] ∨ k < i → WS_TOPICS_LIMIT ≤ size (topics w)))
      as Hbefore1.
    { intros k Hk. destruct (decide (k = i)) as [->|Hki].
      - exists ws'. rewrite list_lookup_insert_eq by done. split; [done|].
        intros [Hrest|?]; [|lia]. simpl. by destruct Hstop.
      - destruct (Hbefore k) as (w & Hw & Hsz); [lia|]. exists w.
        rewrite list_lookup_insert_ne by done. rewrite Hpre by lia. eauto. }
    destruct Hc as [(Hl & -> & _)|(Hl & -> & Hjlen & Hempty)].
    + (* an existing connection: the list keeps its length here *)
      destruct rest as [|t rest].
      * injection Hassign as <- <- <-. left. simpl. apply length_insert.
      * apply IH in Hassign; simpl; try done.
        -- simpl in Hassign. rewrite length_insert in Hassign. done.
        -- rewrite length_insert. lia.
        -- intros k Hk. destruct (Hbefore1 k Hk) as (w & Hw & Hsz).
           exists w. split; [done|]. apply Hsz. by left.
    + (* a new connection *)
      right. apply lookup_ge_None in Hl.
      assert (length (websockets p) = i) as Hlen by lia.
      assert (0 < size m) as Hm.
      { rewrite Hempty, map_size_empty in Htot3.
        destruct Hstop as [->|?]; [simpl in *; lia|lia]. }
      destruct rest as [|t rest].
      * injection Hassign as <- <- <-. simpl.
        rewrite length_insert, length_app. simpl. split.
        -- intros k Hk. destruct (Hbefore1 k) as (w & Hw & Hsz); [lia|].
           exists w. split; [done|]. apply Hsz. right. lia.
        -- exists ws'. split; [|done].
           rewrite last_lookup, length_insert, length_app. simpl.
           replace (Init.Nat.pred (length (websockets p) + 1)) with i by lia.
           by apply list_lookup_insert_eq.
      * pose proof Hassign as Hinv.
        apply assign_inv in Hinv; simpl; try done;
          [|rewrite length_insert; lia].
        destruct Hinv as (_ & _ & Hlen3 & _ & Hpre3 & _).
        simpl in Hlen3, Hpre3. rewrite length_insert in Hlen3.
        apply IH in Hassign; simpl; try done.
        -- destruct Hassign as [Hsame|Hright]; [|done]. simpl in Hsame.
           rewrite length_insert, length_app in Hsame. simpl in Hsame.
           split.
           ++ intros k Hk. rewrite Hpre3 by lia.
              destruct (Hbefore1 k) as (w & Hw & Hsz); [lia|].
              exists w. split; [done|]. apply Hsz. by left.
           ++ exists ws'. split; [|done].
              rewrite last_lookup, Hsame.
              replace (Init.Nat.pred (length (websockets p) + 1))
                with i by lia.
              rewrite Hpre3 by lia. by apply list_lookup_insert_eq.
        -- rewrite length_insert. lia.
        -- intros k Hk. destruct (Hbefore1 k Hk) as (w & Hw & Hsz).
           exists w. split; [done|]. apply Hsz. by left.
Qed.

(** X10. Both calls leave a consolidated pool.  After [remove_topics],
    whatever the pool was, the pool is empty or its topics do not fit into
    one connection less.  A call of [add_topics] that nothing overlaps
    keeps a pool in order, with at most [MAX_WEBSOCKETS] connections and a
    positive limit, consolidated: it fills the connections in turn and
    opens a connection only to put a topic in it. *)
Theorem calls_leave_tight order time p ts ks :
  Inj (=) (=) str → (∀ s, order s ≡ₚ elements s) →
  tight (websockets (remove_topics p ks).1) ∧
  (0 < WS_TOPICS_LIMIT → pool_ok (websockets p) →
   length (websockets p) ≤ MAX_WEBSOCKETS → tight (websockets p) →
   resume_at_once MAX_WEBSOCKETS time (add_topics_begin order time p ts)
   = Some (add_topics order time p ts) ∧
   tight (websockets (add_topics order time p ts).1.2)).
Proof.
  intros Hinj Hperm. split.
  - destruct (remove_topics_spec p ks) as (k & Hk & -> & _ & Hstop). simpl.
    destruct Hstop as [->|Hstop]; [by left|right].
    by rewrite length_take, Nat.min_l.
  - intros Hpos Hok Hlen IH. split; [apply add_topics_alone|].
    destruct (add_topics order time p ts) as [[res p'] evs] eqn:Hadd.
    pose proof (add_topics_inv Hinj order Hperm _ _ _ _ _ _ Hadd Hok)
      as (Hok' & _ & Hlen1 & Hlen2 & Hres).
    simpl. unfold add_topics in Hadd.
    set (topics_set := list_to_set ts ∖ ⋃ (topic_values <$> websockets p))
      in *.
    case_decide as Hempty; [by injection Hadd as <- <- <-|].
    destruct Hok' as (_ & _ & Hlim).
    pose proof (total_le_limit _ Hlim) as Hle.
    apply assign_tight in Hadd; try done.
    + destruct Hadd as [Hsame|(Hfull & w & Hlast & Hw)].
      * destruct res as [e|].
        -- destruct Hres as (_ & _ & Hall).
           apply total_full_prefix in Hall.
           destruct (websockets p') as [|x l] eqn:Hp'; [by left|].
           right. rewrite <- Hp' in *.
           assert (0 < length (websockets p')) as Hpos'
             by (rewrite Hp'; simpl; lia).
           assert (length (websockets p') = MAX_WEBSOCKETS) as Heq by nia.
           destruct (length (websockets p')) as [|n]; [lia|].
           simpl. rewrite Nat.sub_0_r. nia.
        -- destruct IH as [Hnil|Htight].
           ++ rewrite Hnil in Hsame. left.
              by apply length_zero_iff_nil in Hsame.
           ++ right. rewrite Hsame. lia.
      * right. pose proof (total_all_but_last_full _ _ Hlast Hfull). lia.
    + intros t Ht. apply elem_of_order in Ht; [|done].
      apply not_held_fresh; [done|apply Hok|].
      by apply elem_of_difference in Ht as [_ ?].
    + by apply order_NoDup.
    + intros Hnil. apply Hempty. apply leibniz_equiv, elements_empty_inv.
      apply Permutation_nil_r. by rewrite <- Hperm, Hnil.
    + lia.
    + intros k Hk. lia.
Qed.

(** X11. On a consolidated pool [remove_topics] with keys that no
    connection holds changes nothing: no connection is popped and no task
    is created.  Consolidation only ever follows a deletion. *)
Theorem remove_topics_absent_keys p ks :
  tight (websockets p) →
  (∀ key, key ∈ ks → key ∉ pool_keys (websockets p)) →
  remove_topics p ks = (p, []).
Proof.
  intros Htight Habsent.
  unfold remove_topics. rewrite remove_keys_noop.
  - rewrite consolidate_tight by (by rewrite reverse_involutive).
    simpl. rewrite reverse_involutive. by destruct p.
  - intros key Hkey. apply Habsent. by apply elem_of_list_to_set in Hkey.
Qed.

(** ** The handling task: what it sends, and where to *)

Ltac crunch_events :=
  repeat (simplify_eq/=; try case_match; try case_decide);
  simplify_eq/=;
  repeat match goal with
         | |- Forall _ [] => constructor
         | |- Forall _ (_ :: _) => constructor
         | |- Forall _ (_ ++ _) => apply Forall_app; split
         end; try done.

Lemma _handle_ping_step now now_rr w :
  Forall (step_event (_ws w)) (_handle_ping now now_rr w).1.2.
Proof. unfold _handle_ping, send, request_reconnect. crunch_events. Qed.

Lemma _handle_topics_step order access_token nonce1 nonce2 w :
  Forall (step_event (_ws w))
    (_handle_topics order access_token nonce1 nonce2 w).1.2.
Proof. unfold _handle_topics, send. crunch_events. Qed.

Lemma _handle_recv_step received now_rr w :
  Forall (step_event (_ws w)) (_handle_recv received now_rr w).1.2.
Proof.
  unfold _handle_recv, dispatch, request_reconnect. crunch_events.
Qed.

Lemma and_then_step w r k :
  frame_ok w r →
  Forall (step_event (_ws w)) r.1.2 →
  (∀ w1, Forall (step_event (_ws w1)) (k w1).1.2) →
  Forall (step_event (_ws w)) (and_then r k).1.2.
Proof.
  intros (_ & Hs & _) Hr Hk. destruct r as [[w1 evs1] out1].
  destruct out1; simpl; try done.
  specialize (Hk w1). destruct (k w1) as [[w2 evs2] out2].
  simpl in *. apply Forall_app. split; [done|]. by rewrite <- Hs.
Qed.

Lemma iteration_step order inp w :
  Forall (step_event (_ws w)) (iteration order inp w).1.2.
Proof.
  unfold iteration.
  apply and_then_step;
    [apply _handle_ping_frame|apply _handle_ping_step|].
  intros w1. apply and_then_step;
    [apply _handle_topics_frame|apply _handle_topics_step|].
  intros w2. destruct (deliver_frame w2 (in_signals inp)) as (_ & <- & _).
  apply _handle_recv_step.
Qed.

Lemma inner_loop_step order inputs : ∀ w,
  Forall (step_event (_ws w)) (inner_loop order inputs w).1.2.
Proof.
  induction inputs as [|inp rest IH]; intros w; simpl.
  - by case_match.
  - case_match; [done|].
    apply and_then_step; [apply iteration_frame|apply iteration_step|done].
Qed.

Lemma step_events_live slot evs rest :
  Forall (step_event slot) evs →
  sends_to_live slot (evs ++ rest) ↔ sends_to_live slot rest.
Proof.
  tidy. induction 1 as [|e evs He _ IH]; simpl; [done|].
  destruct e; simpl in *; try done. tauto.
Qed.

(** The events of one session: the transport is published, the steps of
    the inner loop follow, and the slot is cleared when the loop is
    left. *)
Lemma session_events order websocket inputs w :
  ∃ evs2 tail,
    (session order websocket inputs w).1.2
    = WsSet websocket :: GuiUpdate (_idx w) (Some Connected) None
        :: evs2 ++ tail ∧
    evs2 = (inner_loop order inputs (connected websocket w).1).1.2 ∧
    Forall (step_event (Some websocket)) evs2 ∧
    (tail = [] ∨ tail = [WsClear]) ∧
    ((session order websocket inputs w).2 = Continue → tail = [WsClear]).
Proof.
  unfold session, connected, finally. simpl.
  set (w1 := set_topics_changed true _).
  pose proof (inner_loop_step order inputs w1) as Hstep.
  destruct (inner_loop order inputs w1) as [[w2 evs2] out]. simpl in *.
  destruct out as [|e|]; [|destruct e|]; simpl;
    first [ exists evs2, [WsClear]; split_and!; auto; done
          | exists evs2, []; rewrite app_nil_r; split_and!; auto; done ].
Qed.

Lemma connect_loop_live order connections exhausted : ∀ w slot,
  sends_to_live slot (connect_loop order connections exhausted w).1.2.
Proof.
  induction connections as [|[websocket inputs] rest IH]; intros w slot;
    simpl; [done|].
  destruct (session_events order websocket inputs w)
    as (evs2 & tail & Hevs & _ & Hstep & Htail & Hcont).
  destruct (session order websocket inputs w) as [[w1 evs1] exit].
  simpl in Hevs, Hcont. subst evs1.
  assert (∀ more, sends_to_live None more →
            sends_to_live slot
              ((WsSet websocket :: GuiUpdate (_idx w) (Some Connected) None
                  :: evs2 ++ [WsClear]) ++ more)) as Hclosed.
  { intros more Hmore. simpl. rewrite <- (assoc_L (++)).
    by apply step_events_live. }
  assert (sends_to_live slot
            (WsSet websocket :: GuiUpdate (_idx w) (Some Connected) None
               :: evs2 ++ tail)) as Hhere.
  { simpl. apply step_events_live; [done|]. by destruct Htail as [->| ->]. }
  destruct exit; simpl; try done.
  specialize (IH w1 None).
  destruct (connect_loop order rest exhausted w1) as [[w2 evs3] out].
  simpl in *. rewrite (Hcont eq_refl). by apply (Hclosed evs3).
Qed.

(** X12. The handling task never sends to a stale transport: every message
    of [_handle] goes to the transport that is published at that moment,
    and none is sent while the slot is clear. *)
Theorem handle_sends_to_live_transport order connections exhausted w :
  sends_to_live (_ws w) (_handle order connections exhausted w).1.2.
Proof.
  unfold _handle.
  pose proof (connect_loop_live order connections exhausted
                (set_closed false w) (_ws w)) as Hlive.
  destruct (connect_loop order connections exhausted (set_closed false w))
    as [[w1 evs1] out].
  simpl in Hlive.
  assert (∀ slot, sends_to_live slot
                    [GuiUpdate (_idx w1) (Some Disconnected) None])
    as Hend by done.
  assert (∀ slot l1 l2, sends_to_live slot l1 →
            (∀ s, sends_to_live s l2) → sends_to_live slot (l1 ++ l2))
    as Happ.
  { clear. tidy. intros slot l1. revert slot.
    induction l1 as [|e l1 IH]; intros slot l2 H1 H2; simpl; [done|].
    destruct e; simpl in *; try apply IH; try done.
    destruct H1. split; [done|]. by apply IH. }
  destruct out; simpl; try done. by apply Happ.
Qed.

Lemma sent_app evs1 evs2 : sent (evs1 ++ evs2) = sent evs1 ++ sent evs2.
Proof. apply omap_app. Qed.

Lemma order_nonempty (order : gset WebsocketTopic → list WebsocketTopic) X :
  (∀ s, order s ≡ₚ elements s) → X ≠ ∅ → str <$> order X ≠ [].
Proof.
  intros Hperm Hne Hnil. apply Hne.
  apply fmap_nil_inv in Hnil.
  apply leibniz_equiv, elements_empty_inv, Permutation_nil_r.
  by rewrite <- Hperm, Hnil.
Qed.

Lemma _handle_ping_good now now_rr w :
  Forall good_message (sent (_handle_ping now now_rr w).1.2).
Proof.
  unfold _handle_ping, send, request_reconnect.
  repeat (case_match; simplify_eq/=); try constructor; try done.
Qed.

Lemma _handle_topics_good order access_token nonce1 nonce2 w :
  (∀ s, order s ≡ₚ elements s) →
  Forall good_message
    (sent (_handle_topics order access_token nonce1 nonce2 w).1.2).
Proof.
  intros Hperm. unfold _handle_topics, send.
  repeat (case_match; simplify_eq/=);
    repeat match goal with
           | |- Forall _ [] => constructor
           | |- Forall _ (_ :: _) => apply Forall_cons; split
           end;
    unfold good_message; simpl; split_and?; eauto using order_nonempty.
Qed.

Lemma _handle_recv_good received now_rr w :
  Forall good_message (sent (_handle_recv received now_rr w).1.2).
Proof.
  unfold _handle_recv, dispatch, request_reconnect.
  repeat (case_match; simplify_eq/=); try constructor; try done.
Qed.

Lemma and_then_good r k :
  Forall good_message (sent r.1.2) →
  (∀ w1, Forall good_message (sent (k w1).1.2)) →
  Forall good_message (sent (and_then r k).1.2).
Proof.
  intros Hr Hk. destruct r as [[w1 evs1] out1].
  destruct out1; simpl; try done.
  specialize (Hk w1). destruct (k w1) as [[w2 evs2] out2].
  simpl in *. rewrite sent_app. by apply Forall_app.
Qed.

Lemma inner_loop_good order inputs :
  (∀ s, order s ≡ₚ elements s) →
  ∀ w, Forall good_message (sent (inner_loop order inputs w).1.2).
Proof.
  intros Hperm. induction inputs as [|inp rest IH]; intros w; simpl.
  - case_match; constructor.
  - case_match; [constructor|].
    apply and_then_good; [|done]. unfold iteration.
    apply and_then_good; [apply _handle_ping_good|]. intros w1.
    apply and_then_good; [by apply _handle_topics_good|]. intros w2.
    apply _handle_recv_good.
Qed.

Lemma connect_loop_good order connections exhausted :
  (∀ s, order s ≡ₚ elements s) →
  ∀ w, Forall good_message
         (sent (connect_loop order connections exhausted w).1.2).
Proof.
  intros Hperm.
  induction connections as [|[websocket inputs] rest IH]; intros w; simpl;
    [constructor|].
  destruct (session_events order websocket inputs w)
    as (evs2 & tail & Hevs & Hevs2 & _ & Htail & _).
  pose proof (inner_loop_good order inputs Hperm (connected websocket w).1)
    as Hgood. rewrite <- Hevs2 in Hgood.
  destruct (session order websocket inputs w) as [[w1 evs1] exit].
  simpl in Hevs. subst evs1.
  assert (Forall good_message
            (sent (WsSet websocket
                     :: GuiUpdate (_idx w) (Some Connected) None
                     :: evs2 ++ tail))) as Hhere.
  { simpl. rewrite sent_app. apply Forall_app. split; [done|].
    destruct Htail as [->| ->]; constructor. }
  destruct exit; simpl; try done.
  specialize (IH w1).
  destruct (connect_loop order rest exhausted w1) as [[w2 evs3] out].
  simpl in IH. simpl.
  change (WsSet websocket :: GuiUpdate (_idx w) (Some Connected) None
            :: (evs2 ++ tail) ++ evs3)
    with ((WsSet websocket :: GuiUpdate (_idx w) (Some Connected) None
             :: evs2 ++ tail) ++ evs3).
  rewrite sent_app. by apply Forall_app.
Qed.

(** X13. Everything the handling task sends is a PING without data and
    without nonce, or a LISTEN or UNLISTEN with a nonce and a topic list
    that is not empty. *)
Theorem handle_sends_good_messages order connections exhausted w :
  (∀ s, order s ≡ₚ elements s) →
  Forall good_message (sent (_handle order connections exhausted w).1.2).
Proof.
  intros Hperm. unfold _handle.
  pose proof (connect_loop_good order connections exhausted Hperm
                (set_closed false w)) as Hgood.
  destruct (connect_loop order connections exhausted (set_closed false w))
    as [[w1 evs1] out].
  simpl in Hgood. destruct out; simpl; try done.
  rewrite sent_app. apply Forall_app. split; [done|constructor].
Qed.

(** ** The submitted set, the wire and the topic map *)

Lemma remote_after_app evs1 : ∀ R evs2,
  remote_after R (evs1 ++ evs2) = remote_after (remote_after R evs1) evs2.
Proof.
  induction evs1 as [|e evs1 IH]; intros R evs2; simpl; [done|].
  destruct e; simpl; try done.
  destruct (msg_data m) as [[l tok]|]; [|done].
  repeat case_decide; done.
Qed.

Section Mirror.
Hypothesis str_inj : Inj (=) (=) str.
Variable order : gset WebsocketTopic → list WebsocketTopic.
Hypothesis order_perm : ∀ s, order s ≡ₚ elements s.

#[local] Existing Instance str_inj.

Lemma order_to_set X :
  list_to_set (str <$> order X) = set_map (D:=gset string) str X.
Proof using order_perm.
  tidy. apply set_eq. intros k.
  rewrite elem_of_list_to_set, list_elem_of_fmap, elem_of_map.
  split; intros (x & -> & Hx); exists x; split; try done.
  - rewrite order_perm in Hx. by apply elem_of_elements in Hx.
  - rewrite order_perm. by apply elem_of_elements.
Qed.

Lemma _handle_ping_mirrors now now_rr w :
  mirrors w (_handle_ping now now_rr w).
Proof.
  unfold mirrors, _handle_ping, send, request_reconnect.
  repeat (case_match; simplify_eq/=); done.
Qed.

Lemma _handle_recv_mirrors received now_rr w :
  mirrors w (_handle_recv received now_rr w).
Proof.
  unfold mirrors, _handle_recv, dispatch, request_reconnect.
  repeat (case_match; simplify_eq/=); done.
Qed.

Lemma _handle_topics_mirrors access_token nonce1 nonce2 w :
  mirrors w (_handle_topics order access_token nonce1 nonce2 w).
Proof using str_inj order_perm.
  unfold mirrors, _handle_topics, send.
  destruct (_topics_changed w); simpl; [|done].
  destruct (_ws w) as [tr|] eqn:Hws;
    repeat (case_decide; simpl; rewrite ?Hws; simpl);
    rewrite ?order_to_set;
    repeat first [rewrite set_map_union_L
                 |rewrite (set_map_difference_L str)];
    done.
Qed.

Lemma deliver_submitted w signals :
  _submitted (foldl deliver w signals) = _submitted w ∧
  _topics_changed (foldl deliver w signals) = _topics_changed w.
Proof using Type.
  revert w. induction signals as [|s signals IH]; intros w; [done|].
  simpl. destruct (IH (deliver w s)) as (-> & ->).
  destruct s; unfold deliver, stop, request_reconnect; try case_match; done.
Qed.

Lemma and_then_mirrors w r k :
  mirrors w r → (∀ w1, mirrors w1 (k w1)) → mirrors w (and_then r k).
Proof using Type.
  unfold mirrors. intros Hr Hk. destruct r as [[w1 evs1] out1].
  destruct out1; simpl in *; try done.
  specialize (Hk w1). destruct (k w1) as [[w2 evs2] out2].
  simpl in *. by rewrite remote_after_app, Hr.
Qed.

Lemma iteration_mirrors inp w : mirrors w (iteration order inp w).
Proof using str_inj order_perm.
  unfold iteration. apply and_then_mirrors; [apply _handle_ping_mirrors|].
  intros w1. apply and_then_mirrors; [apply _handle_topics_mirrors|].
  intros w2.
  pose proof (_handle_recv_mirrors (in_received inp) (in_now_recv_rr inp)
                (foldl deliver w2 (in_signals inp))) as Hm.
  unfold mirrors in *.
  by destruct (deliver_submitted w2 (in_signals inp)) as [<- _].
Qed.

(** X14. The submitted set is what the remote end has been told.  Through
    any run of the inner loop, the subscriptions of the remote end (what
    was submitted at the start, plus the topics of every LISTEN sent,
    minus the topics of every UNLISTEN sent, in order) are the string forms
    of the submitted set at the end. *)
Theorem submitted_mirrors_wire inputs w :
  remote_after (set_map str (_submitted w)) (inner_loop order inputs w).1.2
  = set_map str (_submitted (inner_loop order inputs w).1.1).
Proof using str_inj order_perm.
  revert w. induction inputs as [|inp rest IH]; intros w; simpl.
  - by case_match.
  - case_match; [done|].
    by apply (and_then_mirrors w (iteration order inp w)
                (inner_loop order rest) (iteration_mirrors inp w)).
Qed.

End Mirror.

Lemma _handle_ping_sync_fields now now_rr w :
  let w' := (_handle_ping now now_rr w).1.1 in
  _topics_changed w' = _topics_changed w ∧ _submitted w' = _submitted w.
Proof.
  unfold _handle_ping, send, request_reconnect.
  repeat (case_match; simplify_eq/=); done.
Qed.

Lemma _handle_recv_sync_fields received now_rr w :
  let w' := (_handle_recv received now_rr w).1.1 in
  _topics_changed w' = _topics_changed w ∧ _submitted w' = _submitted w.
Proof.
  unfold _handle_recv, dispatch, request_reconnect.
  repeat (case_match; simplify_eq/=); done.
Qed.

Lemma _handle_topics_synced order access_token nonce1 nonce2 w tr :
  _ws w = Some tr → synced w →
  synced (_handle_topics order access_token nonce1 nonce2 w).1.1.
Proof.
  intros Hws Hsync. unfold _handle_topics, send.
  destruct (_topics_changed w) eqn:Hflag; simpl; [|done].
  rewrite Hws. unfold synced.
  repeat (case_decide; simpl; rewrite ?Hws; simpl); intros _.
  - symmetry. by apply sync_sets_equal.
  - by apply sync_sets_added_only.
  - apply sync_sets_removed_only.
    by rewrite <- (sync_sets_added (_submitted w)).
  - rewrite sync_sets_added. apply sync_sets_result.
Qed.

Lemma iteration_synced order inp w tr :
  _ws w = Some tr → synced w → synced (iteration order inp w).1.1.
Proof.
  intros Hws Hsync. unfold iteration.
  pose proof (_handle_ping_frame (in_now inp) (in_now_ping_rr inp) w)
    as (Ht1 & Hs1 & _).
  pose proof (_handle_ping_sync_fields (in_now inp) (in_now_ping_rr inp) w)
    as (Hf1 & Hsub1).
  destruct (_handle_ping (in_now inp) (in_now_ping_rr inp) w)
    as [[w1 evs1] out1]. simpl in *.
  assert (synced w1) as Hsync1.
  { unfold synced in *. rewrite Hf1, Hsub1, Ht1. done. }
  destruct out1; simpl; try done.
  assert (_ws w1 = Some tr) as Hws1 by congruence.
  pose proof (_handle_topics_synced order (in_access_token inp)
                (in_nonce1 inp) (in_nonce2 inp) w1 tr Hws1 Hsync1) as Hsync2.
  destruct (_handle_topics order (in_access_token inp) (in_nonce1 inp)
              (in_nonce2 inp) w1) as [[w2 evs2] out2]. simpl in *.
  destruct out2; simpl; try done.
  set (w3 := foldl deliver w2 (in_signals inp)).
  destruct (deliver_submitted w2 (in_signals inp)) as (Hsub3 & Hf3).
  destruct (deliver_frame w2 (in_signals inp)) as (Ht3 & _).
  pose proof (_handle_recv_frame (in_received inp) (in_now_recv_rr inp) w3)
    as (Ht4 & _).
  pose proof (_handle_recv_sync_fields (in_received inp)
                (in_now_recv_rr inp) w3) as (Hf4 & Hsub4).
  destruct (_handle_recv (in_received inp) (in_now_recv_rr inp) w3)
    as [[w4 evs4] out4]. simpl in *.
  unfold synced in *. fold w3 in Hsub3, Hf3, Ht3.
  rewrite Hf4, Hsub4, Ht4, Hf3, Hsub3, Ht3. done.
Qed.

Lemma inner_loop_synced order inputs : ∀ w tr,
  _ws w = Some tr → synced w → synced (inner_loop order inputs w).1.1.
Proof.
  induction inputs as [|inp rest IH]; intros w tr Hws Hsync; simpl.
  - by case_match.
  - case_match; [done|].
    pose proof (iteration_synced order inp w tr Hws Hsync) as Hsync1.
    pose proof (iteration_frame order inp w) as (_ & Hws1 & _).
    destruct (iteration order inp w) as [[w1 evs1] out1]. simpl in *.
    destruct out1; simpl; try done.
    specialize (IH w1 tr). rewrite Hws1 in IH. specialize (IH Hws Hsync1).
    by destruct (inner_loop order rest w1) as [[w2 evs2] out2].
Qed.

(** X15. Within a session the topics-changed flag tells the truth:
    wherever the inner loop stands after a published transport, a clear
    flag means that the submitted set is the set of the topics held. *)
Theorem session_synced order websocket inputs w :
  synced (inner_loop order inputs (connected websocket w).1).1.1.
Proof.
  apply (inner_loop_synced order inputs _ websocket); [done|].
  unfold synced, connected. simpl. done.
Qed.

(** ** Frames that end a session *)

Lemma _handle_ping_returns now now_rr w tr :
  _ws w = Some tr →
  (_handle_ping now now_rr w).2 = Returned ∧
  _closed (_handle_ping now now_rr w).1.1 = _closed w.
Proof.
  intros Hws. unfold _handle_ping, send, request_reconnect.
  repeat (case_decide; simpl; rewrite ?Hws; simpl); done.
Qed.

Lemma _handle_topics_returns order access_token nonce1 nonce2 w tr :
  _ws w = Some tr →
  (_handle_topics order access_token nonce1 nonce2 w).2 = Returned ∧
  _closed (_handle_topics order access_token nonce1 nonce2 w).1.1
  = _closed w.
Proof.
  intros Hws. unfold _handle_topics, send.
  destruct (_topics_changed w); simpl; [|done].
  repeat (case_decide; simpl; rewrite ?Hws; simpl); done.
Qed.

(** With a transport published, an iteration gets as far as the receive
    step. *)
Lemma iteration_reaches_recv order inp w tr :
  _ws w = Some tr →
  ∃ w2 evs,
    _closed w2 = _closed w ∧ _ws w2 = Some tr ∧ topics w2 = topics w ∧
    _idx w2 = _idx w ∧
    iteration order inp w
    = (let r := _handle_recv (in_received inp) (in_now_recv_rr inp)
                  (foldl deliver w2 (in_signals inp)) in
       (r.1.1, evs ++ r.1.2, r.2)).
Proof.
  intros Hws. unfold iteration.
  pose proof (_handle_ping_frame (in_now inp) (in_now_ping_rr inp) w)
    as (Ht1 & Hs1 & Hi1 & _).
  destruct (_handle_ping_returns (in_now inp) (in_now_ping_rr inp) w tr Hws)
    as [Hout1 Hc1].
  destruct (_handle_ping (in_now inp) (in_now_ping_rr inp) w)
    as [[w1 evs1] out1]. simpl in *. subst out1.
  assert (_ws w1 = Some tr) as Hws1 by congruence.
  pose proof (_handle_topics_frame order (in_access_token inp)
                (in_nonce1 inp) (in_nonce2 inp) w1) as (Ht2 & Hs2 & Hi2 & _).
  destruct (_handle_topics_returns order (in_access_token inp)
              (in_nonce1 inp) (in_nonce2 inp) w1 tr Hws1) as [Hout2 Hc2].
  destruct (_handle_topics order (in_access_token inp) (in_nonce1 inp)
              (in_nonce2 inp) w1) as [[w2 evs2] out2]. simpl in *. subst out2.
  exists w2, (evs1 ++ evs2). split_and!; try congruence.
  destruct (_handle_recv (in_received inp) (in_now_recv_rr inp)
              (foldl deliver w2 (in_signals inp))) as [[w3 evs3] out3].
  simpl. by rewrite (assoc_L (++)).
Qed.

Lemma deliver_stop w signals :
  SigStop ∈ signals ∨ _closed w = true →
  _closed (foldl deliver w signals) = true.
Proof.
  revert w. induction signals as [|s signals IH]; intros w; simpl.
  - intros [?%elem_of_nil|?]; done.
  - intros [Hin|Hc]; apply IH.
    + apply elem_of_cons in Hin as [<-|Hin]; [right|by left].
      unfold deliver, stop. by destruct (_closed w) eqn:?.
    + right. destruct s; unfold deliver, stop, request_reconnect; simpl;
        [by rewrite Hc|done].
Qed.

Lemma last_cons_snoc {A} (x : A) l y : last (x :: l ++ [y]) = Some y.
Proof. tidy. apply (last_snoc y (x :: l)). Qed.

(** A session whose first iteration raises. *)
Lemma session_first_raises order websocket inp more w w3 evs e :
  iteration order inp (connected websocket w).1 = (w3, evs, Raised e) →
  session order websocket (inp :: more) w
  = ((finally w3).1,
     (connected websocket w).2 ++ evs ++ [WsClear],
     match e with
     | WebsocketClosed => if _closed w3 then Break else Continue
     | _ => Propagate e
     end).
Proof.
  intros Hiter. unfold session. simpl. simpl in Hiter. rewrite Hiter.
  simpl. by destruct e.
Qed.

(** X16. A text frame that fails to decode ends the handling task: when
    the first frame of a session is such a frame, [_handle] raises the
    decode error, whatever connections would follow; the transport slot
    and the submitted set are cleared, and clearing the slot is the last
    thing that happens (no status is reported after it). *)
Theorem undecodable_frame_ends_task
    order websocket inp more rest exhausted w raw :
  in_received inp = ReceiveFrame raw → type raw = TEXT →
  json_loads (data raw) = None →
  let r := _handle order ((websocket, inp :: more) :: rest) exhausted w in
  r.2 = Raised JSONDecodeError ∧
  _ws r.1.1 = None ∧ _submitted r.1.1 = ∅ ∧ topics r.1.1 = topics w ∧
  last r.1.2 = Some WsClear.
Proof.
  intros Hrecv Htext Hloads r. subst r.
  set (w0 := set_closed false w).
  destruct (iteration_reaches_recv order inp (connected websocket w0).1
              websocket eq_refl) as (w2 & evs & _ & Hws2 & Ht2 & _ & Hiter).
  destruct (deliver_frame w2 (in_signals inp)) as (Ht3 & Hws3 & _).
  set (w3 := foldl deliver w2 (in_signals inp)) in *.
  assert (_handle_recv (in_received inp) (in_now_recv_rr inp) w3
          = (w3, [], Raised JSONDecodeError)) as Hr.
  { unfold _handle_recv. by rewrite Hws3, Hws2, Hrecv, Htext, Hloads. }
  rewrite Hr in Hiter. simpl in Hiter.
  unfold _handle. fold w0. cbn [connect_loop].
  rewrite (session_first_raises _ _ _ _ _ _ _ _ Hiter). simpl.
  split_and!; try done.
  - by rewrite Ht3, Ht2.
  - apply last_cons_snoc.
Qed.

(** X17. A close or error frame ends the session, and [stop] decides what
    follows.  When [stop] was called while the task waited for the frame,
    [_handle] returns: the slot is cleared, the connections that would
    follow are not used, and its last event is the "disconnected" status.
    When nobody called [stop], the task goes on to the next transport and
    publishes it, with the topic map as it was and a full resync
    pending. *)
Theorem close_frame_ends_session order websocket inp more w raw :
  in_received inp = ReceiveFrame raw →
  type raw ∈ [CLOSE; CLOSED; CLOSING; ERROR] →
  (SigStop ∈ in_signals inp →
   ∀ rest exhausted,
     let r := _handle order ((websocket, inp :: more) :: rest) exhausted w in
     r.2 = Returned ∧ _closed r.1.1 = true ∧ _ws r.1.1 = None ∧
     last r.1.2 = Some (GuiUpdate (_idx w) (Some Disconnected) None)) ∧
  (in_signals inp = [] →
   ∀ websocket',
     let r := _handle order [(websocket, inp :: more); (websocket', [])]
                false w in
     r.2 = Suspended ∧ _ws r.1.1 = Some websocket' ∧
     topics r.1.1 = topics w ∧ _submitted r.1.1 = ∅ ∧
     _topics_changed r.1.1 = true).
Proof.
  intros Hrecv Htype.
  set (w0 := set_closed false w).
  destruct (iteration_reaches_recv order inp (connected websocket w0).1
              websocket eq_refl)
    as (w2 & evs & Hc2 & Hws2 & Ht2 & Hi2 & Hiter).
  destruct (deliver_frame w2 (in_signals inp)) as (Ht3 & Hws3 & Hi3).
  set (w3 := foldl deliver w2 (in_signals inp)) in *.
  assert (_handle_recv (in_received inp) (in_now_recv_rr inp) w3
          = (w3, [], Raised WebsocketClosed)) as Hr.
  { unfold _handle_recv. rewrite Hws3, Hws2, Hrecv.
    repeat (apply elem_of_cons in Htype as [->|Htype]; [done|]).
    by apply elem_of_nil in Htype. }
  rewrite Hr in Hiter. simpl in Hiter.
  split.
  - intros Hstop rest exhausted r. subst r.
    assert (_closed w3 = true) as Hc3 by (apply deliver_stop; by left).
    unfold _handle. fold w0. cbn [connect_loop].
    rewrite (session_first_raises _ _ _ _ _ _ _ _ Hiter). rewrite Hc3.
    simpl. split_and!; try done.
    rewrite Hi3, Hi2. simpl.
    apply last_cons_snoc.
  - intros Hnone websocket' r. subst r.
    assert (w3 = w2) as Hw3 by (unfold w3; by rewrite Hnone).
    assert (_closed w3 = false) as Hc3 by (by rewrite Hw3, Hc2).
    unfold _handle. fold w0. cbn [connect_loop].
    rewrite (session_first_raises _ _ _ _ _ _ _ _ Hiter). rewrite Hc3.
    unfold session, connected, finally. simpl.
    split_and!; try done. by rewrite Ht3, Ht2.
Qed.

(** ** Dispatch of MESSAGE frames *)


(** X19. A well-formed MESSAGE frame never raises and never changes the
    connection.  It calls the handler of the topic held under the key the
    frame names, with the decoded inner payload, and does nothing when the
    connection holds no topic under that key; with keys that are string
    forms, the topic called is the one whose string form the frame
    names. *)
Theorem message_dispatch w tr raw fields dfields key text payload now_rr :
  keys_ok w → _ws w = Some tr →
  type raw = TEXT → json_loads (data raw) = Some (JObject fields) →
  dict_lookup "type" fields = Some (JString "MESSAGE") →
  dict_lookup "data" fields = Some (JObject dfields) →
  dict_lookup "topic" dfields = Some (JString key) →
  dict_lookup "message" dfields = Some (JString text) →
  json_loads text = Some payload →
  _handle_recv (ReceiveFrame raw) now_rr w
  = (w,
     match topics w !! key with
     | Some t => [TopicCall t payload]
     | None => []
     end,
     Returned) ∧
  (∀ t, topics w !! key = Some t → str t = key).
Proof.
  intros Hkeys Hws Htext Hloads Hty Hdata Htopic Hmsg Hpayload. split.
  - unfold _handle_recv. rewrite Hws, Htext, Hloads. simpl. rewrite Hty.
    simpl. unfold dispatch. simpl. rewrite Hdata. simpl. rewrite Htopic.
    destruct (topics w !! key) as [t|]; [|done].
    by rewrite Hmsg, Hpayload.
  - intros t Ht. symmetry. by apply (Hkeys key t).
Qed.

(** ** Keepalive across sessions *)

(** X20. The keepalive restarts at once after a reconnect request, and
    starts at once on a new connection: [request_reconnect] and the
    constructor set the next ping to their reading of the clock, so the
    first keepalive step on the next transport, at any later time, sends a
    PING. *)
Theorem ping_follows_reconnect now_rr now now' websocket :
  (now_rr ≤ now)%Z →
  (∀ w,
     let w1 := (connected websocket
                  (finally (request_reconnect now_rr w)).1).1 in
     _handle_ping now now' w1
     = (set_max_pong (now + PING_TIMEOUT)
          (set_next_ping (now + PING_INTERVAL) w1),
        [WsSend websocket (mkMessage "PING" None None)], Returned)) ∧
  (∀ index,
     let w1 := (connected websocket (Websocket_init index now_rr)).1 in
     _handle_ping now now' w1
     = (set_max_pong (now + PING_TIMEOUT)
          (set_next_ping (now + PING_INTERVAL) w1),
        [WsSend websocket (mkMessage "PING" None None)], Returned)).
Proof.
  intros Hle. split; intros; unfold _handle_ping, send; simpl;
    by rewrite decide_True.
Qed.

(** X21. A session that ends on a close frame leaves the ping times as
    they are.  When a PING was sent at [t0] and the transport closed
    before the PONG, the pong deadline [t0 + PING_TIMEOUT] outlives the
    transport: on the next transport the first keepalive step between
    that deadline and the next ping sends nothing and requests a
    reconnect. *)
Theorem stale_pong_deadline w t0 now now' websocket :
  (t0 + PING_TIMEOUT ≤ now)%Z → (now < t0 + PING_INTERVAL)%Z →
  let pinged :=
    set_max_pong (t0 + PING_TIMEOUT)
      (set_next_ping (t0 + PING_INTERVAL) w) in
  let w1 := (connected websocket (finally pinged).1).1 in
  _handle_ping now now' w1 = (request_reconnect now' w1, [], Returned).
Proof.
  intros Hlate Hearly pinged w1. unfold _handle_ping. simpl.
  rewrite decide_False by lia. by rewrite decide_True.
Qed.

(** ** Starting and stopping the pool *)



(** X23. Stopping a stopped pool does nothing at all: the second [stop]
    returns at the first test of every connection, closes no transport
    and removes no display row, also when only the second call asks for
    the rows to be removed. *)
Theorem pool_stop_twice p clear_topics clear_topics' :
  WebsocketPool_stop clear_topics' (WebsocketPool_stop clear_topics p).1
  = ((WebsocketPool_stop clear_topics p).1, []).
Proof.
  unfold WebsocketPool_stop. simpl.
  assert (∀ w, Websocket_stop clear_topics'
                 (Websocket_stop clear_topics w).1
               = ((Websocket_stop clear_topics w).1, [])) as Hst.
  { intros w. unfold Websocket_stop.
    destruct (_closed w) eqn:Hc; simpl; by rewrite ?Hc. }
  f_equal.
  - f_equal. rewrite <- list_fmap_compose.
    apply list_fmap_ext. intros i w _. simpl. by rewrite Hst.
  - induction (websockets p) as [|w wss IH]; [done|].
    rewrite fmap_cons, bind_cons, Hst, IH. done.
Qed.

(** * Settings and command-line arguments *)

Section SettingsProperties.

Context {Value : Type}.
Variable py_eq : Value → Value → bool.
Variable PyNone : Value.

Lemma _set_cases key value (s : Settings) :
  (_set py_eq PyNone key value s = s ∧
   py_eq (from_option id PyNone (_data s !! key)) value = true) ∨
  (_set py_eq PyNone key value s
   = mkSettings (_args s) true (<[key := value]> (_data s)) ∧
   py_eq (from_option id PyNone (_data s !! key)) value = false).
Proof.
  unfold _set.
  destruct (py_eq (from_option id PyNone (_data s !! key)) value);
    simpl; auto.
Qed.

Lemma _set_keeps_dirty key value (s : Settings) :
  _dirty s = true → _dirty (_set py_eq PyNone key value s) = true.
Proof.
  intros Hd. by destruct (_set_cases key value s) as [[-> _]|[-> _]].
Qed.

Lemma set_all_keeps_dirty ops (s : Settings) :
  _dirty s = true → _dirty (set_all py_eq PyNone ops s) = true.
Proof.
  revert s. induction ops as [|op ops IH]; intros s Hd; [done|].
  simpl. apply IH. by apply _set_keeps_dirty.
Qed.

Lemma set_all_clean ops (s : Settings) :
  _dirty (set_all py_eq PyNone ops s) = false →
  set_all py_eq PyNone ops s = s.
Proof.
  revert s. induction ops as [|op ops IH]; intros s Hclean; [done|].
  simpl in *.
  destruct (_set_cases op.1 op.2 s) as [[Heq _]|[Heq _]].
  - rewrite Heq in *. by apply IH.
  - rewrite Heq in Hclean.
    rewrite set_all_keeps_dirty in Hclean; done.
Qed.

(** X24. Reading back what a setter stored.  With an equality that holds
    between a value and itself, [_get] after [_set] returns a value equal
    to the one set whenever the key was present or the value differs from
    [None].  Setting a value equal to [None] under a key that is absent
    stores nothing: the dictionary and the dirty flag stay as they were
    and [_get] still answers with its default. *)
Theorem set_then_get key value default (s : Settings) :
  (∀ v, py_eq v v = true) →
  (is_Some (_data s !! key) ∨ py_eq PyNone value = false →
   py_eq (_get key default (_set py_eq PyNone key value s)) value = true) ∧
  (_data s !! key = None → py_eq PyNone value = true →
   _set py_eq PyNone key value s = s ∧
   _get key default (_set py_eq PyNone key value s) = default).
Proof.
  intros Hrefl. split.
  - intros Hcase.
    destruct (_set_cases key value s) as [[-> Heq]|[-> Hne]].
    + unfold _get. destruct (_data s !! key) as [x|] eqn:Hx; simpl in *.
      * done.
      * destruct Hcase as [[? ?]|Hnone]; congruence.
    + unfold _get. simpl. by rewrite lookup_insert_eq.
  - intros Habs Hnone.
    assert (_set py_eq PyNone key value s = s) as Hsame.
    { unfold _set. rewrite Habs. simpl. by rewrite Hnone. }
    split; [done|]. rewrite Hsame. unfold _get. by rewrite Habs.
Qed.

(** X25. A setter touches one key only and never lowers the dirty flag:
    every other key reads as before, the arguments are kept, and a
    settings object that was dirty stays dirty. *)
Theorem set_touches_one_key key value (s : Settings) :
  (∀ key' default, key' ≠ key →
     _get key' default (_set py_eq PyNone key value s)
     = _get key' default s) ∧
  _args (_set py_eq PyNone key value s) = _args s ∧
  (_dirty s = true → _dirty (_set py_eq PyNone key value s) = true).
Proof.
  split_and!.
  - intros key' default Hne.
    destruct (_set_cases key value s) as [[-> _]|[-> _]]; [done|].
    unfold _get. simpl. by rewrite lookup_insert_ne.
  - by destruct (_set_cases key value s) as [[-> _]|[-> _]].
  - apply _set_keeps_dirty.
Qed.

(** X26. No change is lost between two saves.  A save leaves the object
    clean, so a second save that is not forced writes nothing.  After a
    save and any run of assignments through the setters, a save that is
    not forced either writes the dictionary as it is now, or writes
    nothing, and then the dictionary is the one the earlier save left. *)
Theorem unforced_save_loses_nothing force ops (s : Settings) :
  let saved := (save force s).1 in
  let s' := set_all py_eq PyNone ops saved in
  save false saved = (saved, []) ∧
  ((save false s').2 = [JsonSave (_data s')] ∨
   ((save false s').2 = [] ∧ _data s' = _data s)).
Proof.
  intros saved s'.
  assert (_dirty saved = false ∧ _data saved = _data s) as [Hclean Hdata].
  { subst saved. unfold save. destruct (_dirty s) eqn:Hd, force; done. }
  split.
  - unfold save. by rewrite Hclean.
  - destruct (_dirty s') eqn:Hd.
    + left. unfold save. by rewrite Hd.
    + right. split; [unfold save; by rewrite Hd|].
      subst s'. by rewrite (set_all_clean _ _ Hd).
Qed.

End SettingsProperties.

(** X27. The count of [-v] flags is cut at four: every count of four or
    more gives the level of four, and the level is the fallback [DEBUG]
    or an entry of [LOGGING_LEVELS] under a key of at most four. *)
Theorem logging_level_clamped (LOGGING_LEVELS : gmap Z Z) (a : ParsedArgs) :
  (4 ≤ _verbose a →
   logging_level LOGGING_LEVELS a
   = default DEBUG (LOGGING_LEVELS !! 4%Z))%Z ∧
  (logging_level LOGGING_LEVELS a = DEBUG ∨
   ∃ k, (k ≤ 4)%Z ∧
        LOGGING_LEVELS !! k = Some (logging_level LOGGING_LEVELS a)).
Proof.
  unfold logging_level. split.
  - intros Hv. by rewrite Z.min_r.
  - destruct (LOGGING_LEVELS !! Z.min (_verbose a) 4) as [l|] eqn:Hl;
      simpl; [right|by left].
    exists (Z.min (_verbose a) 4). split; [lia|done].
Qed.

End Model.

(* ================================================================== *)
(** * A concrete instance

    Topics are their own string form, the limit is two topics for each of
    two connections, and sets hand out their elements in the order of
    [elements]. *)

Definition ex_str : string → string := id.

Definition ex_order : gset string → list string := elements.

Definition ex_time : nat → Z := λ _, 0%Z.

(** A decoder for the examples.  It agrees with [json.loads] on the texts
    it accepts, and like [json.loads] it rejects the text of a single
    opening brace. *)
Definition ex_json_loads (s : string) : option JsonType :=
  if decide (s = "{}"%string) then Some (JObject [])
  else if decide (s = "null"%string) then Some JNull
  else None.

(** A connected connection that holds the topic "a", not yet submitted,
    with the topics-changed flag set; its next ping is due at 50 and its
    pong deadline is 60. *)
Definition ex_ws : Websocket (WebsocketTopic := string) :=
  mkWebsocket 0 (Some 7) false false true 50 60 true
    {[ "a"%string := "a"%string ]} ∅.

Definition ex_pool1 : WebsocketPool (WebsocketTopic := string) :=
  mkPool false [ex_ws].

(** The pool after [add_topics(["a", "b", "c"])] on a new pool. *)
Definition ex_pool3 : WebsocketPool (WebsocketTopic := string) :=
  (add_topics ex_str 2 2 0 ex_order ex_time WebsocketPool_init
     ["a"; "b"; "c"]%string).1.2.

Lemma ex_order_perm : ∀ s, ex_order s ≡ₚ elements s.
Proof. intros s. reflexivity. Defined.

Lemma ex_pool3_reachable : reachable ex_str 2 2 0 ex_pool3.
Proof.
  apply reachable_add_topics; [apply ex_order_perm|apply reachable_init].
Defined.

(** [ex_pool3] is in order and consolidated. *)
Lemma ex_pool3_ok : pool_ok ex_str 2 (websockets ex_pool3).
Proof.
  apply (reachable_inv ex_str 2 2 0 ex_pool3 _ ex_pool3_reachable).
Defined.

Lemma ex_pool3_tight : tight 2 (websockets ex_pool3).
Proof. right. vm_compute. lia. Defined.

(** A pass through the inner loop during which another task requests a
    reconnect while [receive] times out. *)
Definition ex_reconnect_requested : Inputs :=
  mkInputs 10 10 "token" "n1" "n2" [SigRequestReconnect 20]
    ReceiveTimeout 10.


(** A frame that closes the transport, arriving while another task stops
    the connection; and one arriving on its own. *)
Definition ex_close_stopped : Inputs :=
  mkInputs 100 100 "token" "n1" "n2" [SigStop]
    (ReceiveFrame (mkWSMessage CLOSE EmptyString)) 100.

(** A text frame that holds a single opening brace. *)
Definition ex_undecodable : Inputs :=
  mkInputs 100 100 "token" "n1" "n2" []
    (ReceiveFrame (mkWSMessage TEXT "{")) 100.

(** The text of a MESSAGE frame for the topic "a" whose inner message is
    the text null, and a decoder that accepts it. *)
Definition dq : string := String (Ascii.ascii_of_nat 34) EmptyString.

Definition ex_message_text : string :=
  "{" +:+ dq +:+ "type" +:+ dq +:+ ": " +:+ dq +:+ "MESSAGE" +:+ dq +:+ ", "
  +:+ dq +:+ "data" +:+ dq +:+ ": {" +:+ dq +:+ "topic" +:+ dq +:+ ": "
  +:+ dq +:+ "a" +:+ dq +:+ ", " +:+ dq +:+ "message" +:+ dq +:+ ": "
  +:+ dq +:+ "null" +:+ dq +:+ "}}".

Definition ex_message : list (string * JsonType) :=
  [("type"%string, JString "MESSAGE");
   ("data"%string,
    JObject [("topic"%string, JString "a");
             ("message"%string, JString "null")])].

Definition ex_json_loads_message (s : string) : option JsonType :=
  if decide (s = ex_message_text) then Some (JObject ex_message)
  else ex_json_loads s.

(** Settings whose values are integers or [None], compared by identity;
    six [-v] flags on the command line. *)
Definition ex_args : ParsedArgs :=
  mkParsedArgs 6 false false false true false false.

Definition ex_py_eq (a b : option Z) : bool := bool_decide (a = b).

Definition ex_settings : @Settings (option Z) :=
  mkSettings ex_args false {[ "connection_quality"%string := Some 1%Z ]}.

(** ** The theorems at the instance *)


Lemma overlapping_add_topics_share_key_witness :
  let p0 := (WebsocketPool_start WebsocketPool_init).1 in
  ∃ cA cB wA wB,
    (add_topics_begin ex_str 2 1 0 ex_order ex_time p0 ["a"]%string).1
    = (Awaiting cA, p0) ∧
    (add_topics_begin ex_str 2 1 0 ex_order ex_time p0 ["a"]%string).1
    = (Awaiting cB, p0) ∧
    (add_topics_resume ex_str 2 0 ex_time cA p0).1
    = (Finished None, mkPool true [wA]) ∧
    (add_topics_resume ex_str 2 0 ex_time cB (mkPool true [wA])).1
    = (Finished None, mkPool true [wA; wB]) ∧
    topics wA = {[ex_str "a"%string := "a"%string]} ∧
    topics wB = {[ex_str "a"%string := "a"%string]} ∧
    ¬ dom (topics wA) ## dom (topics wB) ∧
    ¬ unique_keys [wA; wB].
Proof.
  apply (overlapping_add_topics_share_key ex_str 2 1 0 ex_order ex_time
           ex_time "a"%string ex_order_perm); lia.
Defined.

Lemma remove_topics_consolidation_witness :
  let wss := remove_keys (list_to_set ["a"]%string) (websockets ex_pool3) in
  websockets (remove_topics 2 ex_pool3 ["a"]%string).1 = take 1 wss ∧
  (remove_topics 2 ex_pool3 ["a"]%string).2
  = ((λ w, CreateTask (StopTask w true)) <$> reverse (drop 1 wss))
    ++ [CreateTask (AddTopicsTask ["b"%string])] ∧
  length (reverse (drop 1 wss)) = 1.
Proof.
  intros wss.
  destruct (remove_topics_consolidation 2 ex_pool3 ["a"]%string)
    as (k & Hk & Hkeep & Hpop & Hstop & _ & _ & _ & Hsome & _).
  fold wss in Hk, Hkeep, Hpop, Hstop, Hsome.
  assert (length wss = 2) as Hlen by (vm_compute; reflexivity).
  assert (total (take 1 wss) = 1) as H1 by (vm_compute; reflexivity).
  assert (total (take 2 wss) = 2) as H2 by (vm_compute; reflexivity).
  assert (k = 1) as ->.
  { destruct k as [|[|[|k]]]; [|reflexivity| |lia].
    - specialize (Hpop 1). lia.
    - destruct Hstop as [Hstop|Hstop]; [lia|]. simpl in Hstop. lia. }
  split_and!; [exact Hkeep| |vm_compute; reflexivity].
  rewrite Hsome; [|vm_compute; lia].
  vm_compute. reflexivity.
Defined.

Lemma add_topics_idempotent_witness :
  add_topics ex_str 2 2 0 ex_order ex_time ex_pool1 ["a"]%string
  = (None, ex_pool1, []).
Proof.
  apply add_topics_idempotent. intros t Ht.
  apply list_elem_of_singleton in Ht as ->.
  exists ex_ws, "a"%string. split; [left|reflexivity].
Defined.


Lemma keepalive_step_witness :
  _handle_ping 180 10 100 100 ex_ws
  = (mkWebsocket 0 (Some 7) false false true 280 110 true
       {[ "a"%string := "a"%string ]} ∅,
     [WsSend 7 (mkMessage "PING" None None)], Returned) ∧
  _next_ping (_handle_ping 180 10 100 100 ex_ws).1.1 = 280%Z ∧
  _max_pong (_handle_ping 180 10 100 100 ex_ws).1.1 = 110%Z.
Proof.
  destruct (proj1 (keepalive_step ex_str 180 10 ex_json_loads) 100%Z 100%Z
              ex_ws 7 eq_refl) as (Hstep & Hnext & Hmax & _).
  { simpl. lia. }
  split_and!; [rewrite Hstep; reflexivity|exact Hnext|exact Hmax].
Defined.

Lemma topic_sync_step_witness :
  _handle_topics ex_str ex_order "token" "n1" "n2" ex_ws
  = (set_submitted {[ "a"%string ]} (set_topics_changed false ex_ws),
     [GuiUpdate 0 None (Some 1);
      WsSend 7 (mkMessage "LISTEN" (Some (["a"%string], "token"%string))
                  (Some "n2"%string))],
     Returned).
Proof.
  destruct (topic_sync_step ex_str ex_order "token" "n1" "n2" ex_ws 7
              ex_order_perm eq_refl) as (Hset & _).
  rewrite (Hset eq_refl). vm_compute. reflexivity.
Defined.

Lemma recv_unexpected_frames_witness :
  _handle_recv ex_json_loads (ReceiveFrame (mkWSMessage TEXT "{}")) 0 ex_ws
  = (ex_ws, [], Returned).
Proof.
  apply (proj1 (recv_unexpected_frames ex_json_loads ex_ws 7 0%Z eq_refl)
           (mkWSMessage TEXT "{}") []); [reflexivity|reflexivity|].
  intros s Hs. discriminate Hs.
Defined.

Lemma reconnect_preserves_topics_witness :
  let r := connect_loop ex_str 180 10 ex_json_loads ex_order
             [(7, [ex_reconnect_requested]); (8, [])] false ex_ws in
  r.2 = Suspended ∧
  topics r.1.1 = topics ex_ws ∧ _submitted r.1.1 = ∅ ∧
  _topics_changed r.1.1 = true ∧ _reconnect_requested r.1.1 = false ∧
  _ws r.1.1 = Some 8 ∧
  sent r.1.2
  = [mkMessage "LISTEN" (Some (["a"%string], "token"%string))
       (Some "n2"%string)].
Proof.
  destruct (reconnect_preserves_topics ex_str 180 10 ex_json_loads)
    as (_ & _ & _ & _ & Hnext & _).
  destruct (Hnext ex_order 7 [ex_reconnect_requested] 8 ex_ws)
    as (H1 & H2 & H3 & H4 & H5 & H6).
  { vm_compute. reflexivity. }
  split_and!; try assumption. vm_compute. reflexivity.
Defined.

Lemma remove_all_topics_empties_pool_witness :
  websockets (remove_topics 2 ex_pool1 ["a"]%string).1 = [].
Proof.
  rewrite remove_all_topics_empties_pool; [reflexivity|].
  vm_compute. repeat constructor.
Defined.

(** ** The further properties at the instance *)

Lemma calls_keep_pool_ok_witness :
  unique_keys
    (websockets
       (add_topics ex_str 2 2 0 ex_order ex_time ex_pool3 ["d"]%string).1.2)
  ∧ length
      (websockets
         (add_topics ex_str 2 2 0 ex_order ex_time ex_pool3
            ["d"]%string).1.2) ≤ 2.
Proof.
  destruct (calls_keep_pool_ok ex_str 2 2 0 _ ex_order ex_order_perm ex_time
              ex_pool3 ["d"]%string ["a"]%string ex_pool3_ok)
    as (_ & ((_ & Hu & _) & Hlen) & _).
  { vm_compute. lia. }
  split; [exact Hu|exact Hlen].
Defined.

Lemma add_topics_succeeds_iff_fits_witness :
  (add_topics ex_str 2 2 0 ex_order ex_time ex_pool3 ["d"]%string).1.1
  = None.
Proof.
  destruct (add_topics_succeeds_iff_fits ex_str 2 2 0 _ ex_order
              ex_order_perm ex_time ex_pool3 ["d"]%string ex_pool3_ok)
    as (_ & Hiff & _).
  { vm_compute. lia. }
  apply Hiff. vm_compute. lia.
Defined.

Lemma add_topics_failure_fills_pool_witness :
  total (websockets
           (add_topics ex_str 2 2 0 ex_order ex_time ex_pool3
              ["d"; "e"]%string).1.2) = 2 * 2.
Proof.
  apply (add_topics_failure_fills_pool ex_str 2 2 0 _ ex_order
           ex_order_perm ex_time ex_pool3 ["d"; "e"]%string capacity_error
           ex_pool3_ok).
  - vm_compute. lia.
  - vm_compute. reflexivity.
Defined.

Lemma add_topics_touches_only_topics_witness :
  (add_topics_begin ex_str 2 2 0 ex_order ex_time ex_pool3 ["d"]%string).1
  = (Finished None,
     (add_topics ex_str 2 2 0 ex_order ex_time ex_pool3 ["d"]%string).1.2).
Proof.
  destruct (add_topics_touches_only_topics ex_str 2 2 0 _ ex_order
              ex_order_perm ex_time ex_pool3 ["d"]%string ex_pool3_ok
              eq_refl) as (Hbegin & _).
  rewrite Hbegin. vm_compute. reflexivity.
Defined.

Lemma remove_topics_removes_witness :
  "c"%string
    ∉ pool_keys (websockets (remove_topics 2 ex_pool3 ["c"]%string).1).
Proof.
  apply (remove_topics_removes ex_str 2 ex_pool3 ["c"]%string
           "c"%string ex_pool3_ok).
  left.
Defined.

Lemma remove_topics_idempotent_witness :
  remove_topics 2 (remove_topics 2 ex_pool3 ["c"]%string).1 ["c"]%string
  = ((remove_topics 2 ex_pool3 ["c"]%string).1, []).
Proof.
  apply (remove_topics_idempotent 2 ex_pool3 ["c"]%string).
  apply ex_pool3_ok.
Defined.

Lemma calls_leave_tight_witness :
  tight 2
    (websockets
       (add_topics ex_str 2 2 0 ex_order ex_time ex_pool3 ["d"]%string).1.2).
Proof.
  destruct (calls_leave_tight ex_str 2 2 0 ex_order ex_time ex_pool3
              ["d"]%string [] _ ex_order_perm) as (_ & Hadd).
  apply Hadd; [lia|apply ex_pool3_ok|vm_compute; lia|apply ex_pool3_tight].
Defined.

Lemma remove_topics_absent_keys_witness :
  remove_topics 2 ex_pool3 ["z"]%string = (ex_pool3, []).
Proof.
  apply (remove_topics_absent_keys 2 ex_pool3 ["z"]%string ex_pool3_tight).
  intros key Hkey. apply list_elem_of_singleton in Hkey. subst key.
  apply (bool_decide_unpack _). vm_compute. exact I.
Defined.


Lemma remove_topics_keeps_or_recycles_witness :
  held (websockets (remove_topics 2 ex_pool1 ["z"]%string).1) "a"%string ∨
  ∃ recycled,
    CreateTask (AddTopicsTask recycled)
      ∈ (remove_topics 2 ex_pool1 ["z"]%string).2 ∧
    "a"%string ∈ recycled.
Proof.
  apply (remove_topics_keeps_or_recycles 2 ex_pool1 ["z"]%string ex_ws
           "a"%string "a"%string).
  - left.
  - vm_compute. reflexivity.
  - intros Hin. apply list_elem_of_singleton in Hin. discriminate Hin.
Defined.

Lemma remove_topics_touches_only_topics_witness :
  _running (remove_topics 2 ex_pool3 ["c"]%string).1 = _running ex_pool3.
Proof.
  assert (is_Some (websockets (remove_topics 2 ex_pool3 ["c"]%string).1
                     !! 0)) as [w' Hw'] by (vm_compute; eauto).
  apply (remove_topics_touches_only_topics 2 ex_pool3 ["c"]%string 0 w' Hw').
Defined.

Lemma handle_sends_good_messages_witness :
  Forall good_message
    (sent (_handle ex_str 180 10 ex_json_loads ex_order
             [(7, [ex_close_stopped])] true ex_ws).1.2).
Proof.
  apply (handle_sends_good_messages ex_str 180 10 ex_json_loads ex_order
           [(7, [ex_close_stopped])] true ex_ws ex_order_perm).
Defined.

Lemma submitted_mirrors_wire_witness :
  remote_after (set_map ex_str (_submitted ex_ws))
    (inner_loop ex_str 180 10 ex_json_loads ex_order [ex_close_stopped]
       ex_ws).1.2
  = set_map ex_str
      (_submitted
         (inner_loop ex_str 180 10 ex_json_loads ex_order [ex_close_stopped]
            ex_ws).1.1).
Proof.
  apply (submitted_mirrors_wire ex_str 180 10 ex_json_loads _ ex_order
           ex_order_perm [ex_close_stopped] ex_ws).
Defined.

Lemma undecodable_frame_ends_task_witness :
  (_handle ex_str 180 10 ex_json_loads ex_order
     [(7, [ex_undecodable])] true ex_ws).2 = Raised JSONDecodeError.
Proof.
  apply (undecodable_frame_ends_task ex_str 180 10 ex_json_loads ex_order
           7 ex_undecodable [] [] true ex_ws (mkWSMessage TEXT "{"));
    reflexivity.
Defined.

Lemma close_frame_ends_session_witness :
  (_handle ex_str 180 10 ex_json_loads ex_order
     [(7, [ex_close_stopped])] true ex_ws).2 = Returned.
Proof.
  apply (proj1 (close_frame_ends_session ex_str 180 10 ex_json_loads
                  ex_order 7 ex_close_stopped [] ex_ws
                  (mkWSMessage CLOSE EmptyString) eq_refl
                  (list_elem_of_here _ _))).
  left.
Defined.


Lemma message_dispatch_witness :
  _handle_recv ex_json_loads_message
    (ReceiveFrame (mkWSMessage TEXT ex_message_text)) 0 ex_ws
  = (ex_ws, [TopicCall "a"%string JNull], Returned).
Proof.
  apply (message_dispatch ex_str ex_json_loads_message ex_ws 7
           (mkWSMessage TEXT ex_message_text) ex_message
           [("topic"%string, JString "a");
            ("message"%string, JString "null")]
           "a"%string "null"%string JNull 0%Z).
  - intros key t Hkey. simpl in Hkey.
    apply lookup_singleton_Some in Hkey as [<- <-]. reflexivity.
  - reflexivity.
  - reflexivity.
  - vm_compute. reflexivity.
  - reflexivity.
  - reflexivity.
  - reflexivity.
  - reflexivity.
  - vm_compute. reflexivity.
Defined.

Lemma ping_follows_reconnect_witness :
  _handle_ping 180 10 9 9
    (connected 8 (finally (request_reconnect 5 ex_ws)).1).1
  = (set_max_pong 19
       (set_next_ping 189
          (connected 8 (finally (request_reconnect 5 ex_ws)).1).1),
     [WsSend 8 (mkMessage "PING" None None)], Returned).
Proof.
  apply (proj1 (ping_follows_reconnect 180 10 5 9 9 8 ltac:(lia)) ex_ws).
Defined.

Lemma stale_pong_deadline_witness :
  let w1 :=
    (connected 8
       (finally (set_max_pong 110 (set_next_ping 280 ex_ws))).1).1 in
  _handle_ping 180 10 150 150 w1 = (request_reconnect 150 w1, [], Returned).
Proof.
  apply (stale_pong_deadline 180 10 ex_ws 100 150 150 8); lia.
Defined.


Lemma set_then_get_witness :
  ex_py_eq
    (_get "connection_quality" (Some 1%Z)
       (_set ex_py_eq None "connection_quality" (Some 2%Z) ex_settings))
    (Some 2%Z) = true.
Proof.
  apply (proj1 (set_then_get ex_py_eq None "connection_quality"
                  (Some 2%Z) (Some 1%Z) ex_settings
                  (λ v, bool_decide_eq_true_2 _ eq_refl))).
  right. reflexivity.
Defined.

(** ** Where the code departs from the wording of the specification *)

(** C7 as stated has one UNLISTEN and then one LISTEN sent whenever the
    flag is set.  With nothing submitted and the topic "a" held, only the
    LISTEN is sent. *)
Lemma topic_sync_counterexample :
  sent (_handle_topics ex_str ex_order "token" "n1" "n2" ex_ws).1.2
  = [mkMessage "LISTEN" (Some (["a"%string], "token"%string))
       (Some "n2"%string)] ∧
  Forall (λ m, msg_type m ≠ "UNLISTEN"%string)
    (sent (_handle_topics ex_str ex_order "token" "n1" "n2" ex_ws).1.2).
Proof.
  split.
  - vm_compute. reflexivity.
  - vm_compute. repeat constructor. discriminate.
Qed.

(** C8 as stated has a text frame that fails to decode ignored.  The text
    of a single opening brace fails to decode, and [_handle_recv] raises
    the decode error. *)
Lemma recv_decode_failure_counterexample :
  ex_json_loads "{" = None ∧
  (_handle_recv ex_json_loads (ReceiveFrame (mkWSMessage TEXT "{")) 0
     ex_ws).2 = Raised JSONDecodeError ∧
  (_handle_recv ex_json_loads (ReceiveFrame (mkWSMessage TEXT "{")) 0
     ex_ws).2 ≠ Returned.
Proof. split_and!; [reflexivity|reflexivity|discriminate]. Qed.
